(** * BucketKit upload queue: the provider of [bucketkit-react/src/context.tsx]

    A shallow embedding of [BucketKitProvider]: the [items] state cell, the
    two refs ([abortControllers], [uploadQueueRef]), the callbacks the
    provider hands out, and the asynchronous body of [uploadFile], followed
    by the properties of the upload queue checked against that code. *)

From Stdlib Require Import ZArith QArith Qround Lqa.
From stdpp Require Import base numbers option list gmap strings pretty.

Local Open Scope Z_scope.

(** ** Data model ([types.ts]) *)

(** [UploadStatus = "queued" | "uploading" | "complete" | "error"]. *)
Inductive UploadStatus := StQueued | StUploading | StComplete | StError.

Global Instance UploadStatus_eq_dec : EqDecision UploadStatus.
Proof. solve_decision. Defined.

(** The parts of a DOM [File] the provider reads. *)
Module File.
Record t := mk { name : string; type : string; size : Z }.
End File.

(** [PresignedUrlResponse]. *)
Module Presigned.
Record t := mk {
  url : string;
  method : string;
  headers : list (string * string);
  key : string;
  publicUrl : string
}.
End Presigned.

(** [UploadItem]; the optional fields [error], [url] and [key] are [None]
    when absent or [undefined]. *)
Record UploadItem := mkItem {
  id : string;
  fileName : string;
  size : Z;
  status : UploadStatus;
  progress : Z;
  error : option string;
  url : option string;
  key : option string;
  contentType : string;
  file : File.t
}.

(** [Partial<UploadItem>] as [updateItem] receives it: a field is [Some v]
    when the object literal has the key.  [error] can be present with the
    value [undefined], hence the nested option. *)
Record Updates := mkUpdates {
  u_status : option UploadStatus;
  u_progress : option Z;
  u_error : option (option string);
  u_url : option string;
  u_key : option string
}.

(** [{ ...item, ...updates }]. *)
Definition spread (item : UploadItem) (u : Updates) : UploadItem :=
  {| id := id item;
     fileName := fileName item;
     size := size item;
     status := default (status item) (u_status u);
     progress := default (progress item) (u_progress u);
     error := default (error item) (u_error u);
     url := from_option Some (url item) (u_url u);
     key := from_option Some (key item) (u_key u);
     contentType := contentType item;
     file := file item |}.

(** A value caught by the [catch] clause of [uploadFile]: an [Error]
    instance with its message, or some other value together with its
    [message] property when that is a string. *)
Inductive Thrown :=
| ErrorObj (message : string)
| OtherValue (message : option string).

Definition message_of (e : Thrown) : option string :=
  match e with
  | ErrorObj m => Some m
  | OtherValue m => m
  end.

(** Body of a non-2xx resolver response after
    [response.json().catch(() => ({}))]: the two properties that
    [getPresignedUrl] reads. *)
Record ErrorBody := mkBody {
  body_error : option string;
  body_message : option string
}.

(** Outcome of the request in [getPresignedUrl]: [fetch] or
    [response.json()] rejected (with a [TypeError] or [SyntaxError], of the
    given message), a non-2xx response, or a 2xx response with its body. *)
Inductive FetchResult :=
| FetchRejected (message : string)
| ResponseNotOk (body : ErrorBody)
| ResponseOk (presigned : Presigned.t).

(** JavaScript [a || b] on optional strings: the empty string and
    [undefined] are falsy. *)
Definition js_or (a : option string) (b : string) : string :=
  match a with
  | Some s => if decide (s = "") then b else s
  | None => b
  end.

(** Where [await getPresignedUrl(item.file)] leaves [uploadFile]: with a
    presigned response, or in the [catch] clause with the thrown value. *)
Definition getPresignedUrl (r : FetchResult) : Thrown + Presigned.t :=
  match r with
  | FetchRejected message => inl (ErrorObj message)
  | ResponseNotOk body =>
      inl (ErrorObj (js_or (body_error body)
                       (js_or (body_message body) "Failed to get upload URL")))
  | ResponseOk p => inr p
  end.

(** ** Provider state *)

(** Where an [uploadFile] call is suspended. *)
Inductive Phase :=
| Resolving                       (* at [await getPresignedUrl(item.file)] *)
| Sending (presigned : Presigned.t) (* at [await new Promise(...)], XHR sent *)
| Rejected (e : Thrown).          (* promise rejected, [catch] not yet run *)

(** One call of [uploadFile] that has not returned.  [t_ctrl] identifies
    the [AbortController] the call created; [t_aborted] is
    [abortController.signal.aborted]. *)
Record Transfer := mkTransfer {
  t_ctrl : nat;
  t_item : UploadItem;
  t_aborted : bool;
  t_phase : Phase
}.

(** An invocation of one of the optional provider callbacks. *)
Inductive Callback :=
| OnUploadComplete (item : UploadItem)
| OnError (e : Thrown) (item : UploadItem).

(** The provider between two tasks of the event loop.

    - [items]: the state cell of [useState], every queued updater applied;
      this is what the next render shows.
    - [rendered]: the [items] constant of the latest render, the one the
      closures of that render ([processQueue] among them) have captured.
    - [abortControllers], [uploadQueueRef]: the two refs.
    - [transfers]: the suspended [uploadFile] calls.
    - [timers]: the pending [setTimeout(() => processQueue(), 0)]
      callbacks, oldest first, each with the [items] its [processQueue]
      closure captured.
    - [callbacks]: the callback invocations so far, oldest first. *)
Record Provider := mkProvider {
  items : list UploadItem;
  rendered : list UploadItem;
  abortControllers : gmap string nat;
  uploadQueueRef : gset string;
  transfers : list Transfer;
  next_ctrl : nat;
  timers : list (list UploadItem);
  callbacks : list Callback
}.

(** Provider options read by the queue. *)
Record Options := mkOptions {
  autoUpload : bool;
  maxConcurrent : Z
}.

Definition default_options : Options := mkOptions true 3.

Definition initial : Provider :=
  mkProvider [] [] ∅ ∅ [] 0 [] [].

(** Functional record updates. *)
Definition set_items (f : list UploadItem → list UploadItem) (w : Provider) :=
  mkProvider (f (items w)) (rendered w) (abortControllers w)
    (uploadQueueRef w) (transfers w) (next_ctrl w) (timers w) (callbacks w).

Definition set_rendered (l : list UploadItem) (w : Provider) :=
  mkProvider (items w) l (abortControllers w)
    (uploadQueueRef w) (transfers w) (next_ctrl w) (timers w) (callbacks w).

Definition set_abortControllers (f : gmap string nat → gmap string nat)
    (w : Provider) :=
  mkProvider (items w) (rendered w) (f (abortControllers w))
    (uploadQueueRef w) (transfers w) (next_ctrl w) (timers w) (callbacks w).

Definition set_uploadQueueRef (f : gset string → gset string) (w : Provider) :=
  mkProvider (items w) (rendered w) (abortControllers w)
    (f (uploadQueueRef w)) (transfers w) (next_ctrl w) (timers w) (callbacks w).

Definition set_transfers (f : list Transfer → list Transfer) (w : Provider) :=
  mkProvider (items w) (rendered w) (abortControllers w)
    (uploadQueueRef w) (f (transfers w)) (next_ctrl w) (timers w) (callbacks w).

Definition set_next_ctrl (n : nat) (w : Provider) :=
  mkProvider (items w) (rendered w) (abortControllers w)
    (uploadQueueRef w) (transfers w) n (timers w) (callbacks w).

Definition set_timers (f : list (list UploadItem) → list (list UploadItem))
    (w : Provider) :=
  mkProvider (items w) (rendered w) (abortControllers w)
    (uploadQueueRef w) (transfers w) (next_ctrl w) (f (timers w)) (callbacks w).

Definition log_callback (c : Callback) (w : Provider) :=
  mkProvider (items w) (rendered w) (abortControllers w)
    (uploadQueueRef w) (transfers w) (next_ctrl w) (timers w)
    (callbacks w ++ [c]).

(** ** JavaScript library functions used by the provider *)

(** [Array.prototype.slice(0, end)]: a negative [end] counts from the end
    of the array, an [end] past the length takes the whole array. *)
Definition slice0 {A} (l : list A) (stop : Z) : list A :=
  if decide (stop < 0)
  then take (Z.to_nat (Z.of_nat (length l) + stop)) l
  else take (Z.to_nat stop) l.

(** [Math.round]: the nearest integer, halves towards +infinity. *)
Definition Math_round (q : Q) : Z := Qfloor (q + (1 # 2))%Q.

(** ** The callbacks of the provider *)

(** [updateItem(id, updates)]:
    [setItems(prev => prev.map(item => item.id === id ? {...item, ...updates} : item))]. *)
Definition updateItem (i : string) (u : Updates) : Provider → Provider :=
  set_items (map (λ item, if decide (id item = i) then spread item u else item)).

(** [uploadFile(item)] up to its first suspension: a fresh controller is
    stored under the id, the record is set to uploading with progress 0,
    and the call waits for [getPresignedUrl]. *)
Definition uploadFile (item : UploadItem) (w : Provider) : Provider :=
  let c := next_ctrl w in
  let w := set_next_ctrl (S c) w in
  let w := set_abortControllers (insert (id item) c) w in
  let w := updateItem (id item)
             (mkUpdates (Some StUploading) (Some 0) None None None) w in
  set_transfers (λ ts, ts ++ [mkTransfer c item false Resolving]) w.

(** The [finally] clause of [uploadFile]; the call returns. *)
Definition uploadFile_finally (t : Transfer) (w : Provider) : Provider :=
  let w := set_abortControllers (delete (id (t_item t))) w in
  let w := set_uploadQueueRef (λ s, s ∖ {[id (t_item t)]}) w in
  set_transfers (filter (λ t', t_ctrl t' ≠ t_ctrl t)) w.

(** The [catch] clause of [uploadFile], followed by [finally]. *)
Definition uploadFile_catch (t : Transfer) (e : Thrown) (w : Provider)
    : Provider :=
  let item := t_item t in
  let w :=
    if decide (message_of e = Some "Upload cancelled") then
      updateItem (id item)
        (mkUpdates (Some StError) None (Some (Some "Cancelled")) None None) w
    else
      let errorMessage :=
        match e with ErrorObj m => m | OtherValue _ => "Upload failed" end in
      let w := updateItem (id item)
        (mkUpdates (Some StError) None (Some (Some errorMessage)) None None) w in
      log_callback
        (OnError (match e with
                  | ErrorObj _ => e
                  | OtherValue _ => ErrorObj errorMessage
                  end) item) w in
  uploadFile_finally t w.

(** The rest of the [try] block once the XHR promise has resolved,
    followed by [finally]. *)
Definition uploadFile_complete (t : Transfer) (presigned : Presigned.t)
    (w : Provider) : Provider :=
  let item := t_item t in
  let u := mkUpdates (Some StComplete) (Some 100) None
             (Some (Presigned.publicUrl presigned))
             (Some (Presigned.key presigned)) in
  let w := updateItem (id item) u w in
  let completedItem := spread item u in
  let w := log_callback (OnUploadComplete completedItem) w in
  uploadFile_finally t w.

(** What the runtime delivers to a suspended [uploadFile] call. *)
Inductive TransferEvent :=
| Fetched (r : FetchResult)
    (* the resolver request has settled *)
| XhrProgress (lengthComputable : bool) (percent : Z)
    (* upload progress; [percent] is [Math.round((loaded / total) * 100)] *)
| XhrLoad (xhr_status : Z)
| XhrError.

(** The listeners and continuations of [uploadFile] for the call that owns
    controller [c].  An event for which the call has no listener in its
    current phase leaves the provider as it is. *)
Definition on_transfer_event (c : nat) (ev : TransferEvent) (w : Provider)
    : Provider :=
  match list_find (λ t, t_ctrl t = c) (transfers w) with
  | None => w
  | Some (_, t) =>
      match t_phase t, ev with
      | Resolving, Fetched r =>
          match getPresignedUrl r with
          | inl e => uploadFile_catch t e w
          | inr presigned =>
              set_transfers
                (map (λ t', if decide (t_ctrl t' = c)
                            then mkTransfer c (t_item t') (t_aborted t')
                                   (Sending presigned)
                            else t')) w
          end
      | Sending _, XhrProgress true percent =>
          updateItem (id (t_item t))
            (mkUpdates None (Some percent) None None None) w
      | Sending presigned, XhrLoad xhr_status =>
          if decide (200 ≤ xhr_status < 300)
          then uploadFile_complete t presigned w
          else uploadFile_catch t
                 (ErrorObj ("Upload failed with status " +:+ pretty xhr_status)) w
      | Sending _, XhrError =>
          uploadFile_catch t (ErrorObj "Upload failed") w
      | _, _ => w
      end
  end.

(** [controller.abort()] on controller [c].  The signal fires its abort
    event once; the only listener is the one [uploadFile] registers when
    it creates the XHR, and it aborts the XHR, whose abort listener rejects
    the promise with [Error("Upload cancelled")].  The resolver request is
    started without the signal, and a listener registered on a signal that
    is already aborted is never called. *)
Definition abort_transfer (c : nat) (t : Transfer) : Transfer :=
  if decide (t_ctrl t = c) then
    if t_aborted t then t
    else mkTransfer c (t_item t) true
           match t_phase t with
           | Sending _ => Rejected (ErrorObj "Upload cancelled")
           | ph => ph
           end
  else t.

Definition abort (c : nat) : Provider → Provider :=
  set_transfers (map (abort_transfer c)).

(** The continuation of one suspended call, if its promise was rejected
    during the current task. *)
Definition microtask (w : Provider) (t : Transfer) : Provider :=
  match t_phase t with
  | Rejected e => uploadFile_catch t e w
  | _ => w
  end.

(** The [catch] clauses that became runnable during the current task run
    before the next task. *)
Definition run_microtasks (w : Provider) : Provider :=
  foldl microtask w (transfers w).

(** [processQueue()], for the closure that captured [captured] as [items]. *)
Definition processQueue (opts : Options) (captured : list UploadItem)
    (w : Provider) : Provider :=
  let queuedItems :=
    filter (λ item, status item = StQueued ∧ id item ∉ uploadQueueRef w)
      captured in
  let uploadingCount :=
    length (filter (λ item, status item = StUploading) captured) in
  let slotsAvailable := maxConcurrent opts - Z.of_nat uploadingCount in
  let itemsToUpload := slice0 queuedItems slotsAvailable in
  foldl (λ w item,
           uploadFile item (set_uploadQueueRef (λ s, {[id item]} ∪ s) w))
    w itemsToUpload.

(** The record [addFiles] creates for a file; the first component is the
    result of [generateUploadId()]. *)
Definition new_item (f : string * File.t) : UploadItem :=
  {| id := f.1;
     fileName := File.name f.2;
     size := File.size f.2;
     status := StQueued;
     progress := 0;
     error := None;
     url := None;
     key := None;
     contentType := File.type f.2;
     file := f.2 |}.

(** [addFiles(files)].  The timer callback calls the [processQueue] of the
    render this [addFiles] belongs to. *)
Definition addFiles (opts : Options) (captured : list UploadItem)
    (files : list (string * File.t)) (w : Provider) : Provider :=
  let newItems := map new_item files in
  let w := set_items (λ prev, prev ++ newItems) w in
  if autoUpload opts then set_timers (λ ts, ts ++ [captured]) w else w.

(** [uploadFiles(files?)]. *)
Definition uploadFiles (opts : Options) (captured : list UploadItem)
    (files : option (list (string * File.t))) (w : Provider) : Provider :=
  let w := match files with
           | Some fs => addFiles opts captured fs w
           | None => w
           end in
  processQueue opts captured w.

(** [cancelUpload(id)]. *)
Definition cancelUpload (i : string) (w : Provider) : Provider :=
  let w := match abortControllers w !! i with
           | Some controller => abort controller w
           | None => w
           end in
  set_items
    (map (λ item,
       if decide (id item = i)
       then spread item
              (mkUpdates (Some StError) None (Some (Some "Cancelled")) None None)
       else item)) w.

(** [removeItem(id)]. *)
Definition removeItem (i : string) (w : Provider) : Provider :=
  let w := cancelUpload i w in
  set_items (filter (λ item, id item ≠ i)) w.

(** [retryUpload(id)]. *)
Definition retryUpload (captured : list UploadItem) (i : string)
    (w : Provider) : Provider :=
  let w :=
    set_items
      (map (λ item,
         if decide (id item = i)
         then spread item
                (mkUpdates (Some StQueued) (Some 0) (Some None) None None)
         else item)) w in
  set_timers (λ ts, ts ++ [captured]) w.

(** [clearCompleted()]. *)
Definition clearCompleted : Provider → Provider :=
  set_items
    (filter (λ item, status item ≠ StComplete ∧ status item ≠ StError)).

(** ** Derived state *)

(** [isUploading]. *)
Definition isUploading (l : list UploadItem) : bool :=
  bool_decide (Exists (λ item, status item = StUploading) l).

(** The [progress] memo of the provider (the record field of the same name
    keeps the plain name). *)
Definition progress_view (l : list UploadItem) : Z :=
  let relevantItems :=
    filter (λ item, status item = StUploading ∨ status item = StComplete) l in
  if decide (length relevantItems = 0%nat) then 0
  else
    let totalProgress :=
      foldl (λ acc item, acc + progress item) 0 relevantItems in
    Math_round (inject_Z totalProgress
                / inject_Z (Z.of_nat (length relevantItems)))%Q.

(** ** The event loop *)

Inductive Event :=
| Render
| AddFiles (files : list (string * File.t))
| UploadFiles (files : option (list (string * File.t)))
| CancelUpload (i : string)
| RemoveItem (i : string)
| RetryUpload (i : string)
| ClearCompleted
| TimerFires
| TransferEv (c : nat) (ev : TransferEvent).

(** One task.  The public operations are those of the latest render's
    context value, so their [processQueue] reads [rendered]; a timer runs
    the [processQueue] it was created with. *)
Definition step (opts : Options) (ev : Event) (w : Provider) : Provider :=
  run_microtasks
    match ev with
    | Render => set_rendered (items w) w
    | AddFiles files => addFiles opts (rendered w) files w
    | UploadFiles files => uploadFiles opts (rendered w) files w
    | CancelUpload i => cancelUpload i w
    | RemoveItem i => removeItem i w
    | RetryUpload i => retryUpload (rendered w) i w
    | ClearCompleted => clearCompleted w
    | TimerFires =>
        match timers w with
        | [] => w
        | captured :: rest =>
            processQueue opts captured (set_timers (λ _, rest) w)
        end
    | TransferEv c ev => on_transfer_event c ev w
    end.

Definition run (opts : Options) (evs : list Event) (w : Provider) : Provider :=
  foldl (λ w ev, step opts ev w) w evs.

(** Number of records with [status = uploading]. *)
Definition uploadingCount (l : list UploadItem) : nat :=
  length (filter (λ item, status item = StUploading) l).

(** ** Specification vocabulary *)

(** No [catch] clause is pending: the provider is between two tasks. *)
Definition settled (w : Provider) : Prop :=
  Forall (λ t, ∀ e, t_phase t ≠ Rejected e) (transfers w).

(** The failures of the [try] block of [uploadFile] other than an abort,
    with the message of the [Error] each one throws: a rejected resolver
    request, a non-2xx resolver response, a non-2xx upload response, and a
    network error of the upload. *)
Inductive fails_with : Phase → TransferEvent → string → Prop :=
| fails_fetch m :
    fails_with Resolving (Fetched (FetchRejected m)) m
| fails_response body :
    fails_with Resolving (Fetched (ResponseNotOk body))
      (js_or (body_error body)
         (js_or (body_message body) "Failed to get upload URL"))
| fails_upload_status presigned xhr_status :
    ¬ (200 ≤ xhr_status < 300) →
    fails_with (Sending presigned) (XhrLoad xhr_status)
      ("Upload failed with status " +:+ pretty xhr_status)
| fails_upload_network presigned :
    fails_with (Sending presigned) XhrError "Upload failed".

(** The tasks that end the attempt [t] in error, with the message that
    reaches the [catch] clause: one of the failures above, or
    [cancelUpload] finding the controller of [t] while its XHR is in
    flight. *)
Inductive ends_in_error (w : Provider) (t : Transfer) : Event → string → Prop :=
| error_by_failure tev m :
    fails_with (t_phase t) tev m →
    ends_in_error w t (TransferEv (t_ctrl t) tev) m
| error_by_cancel i presigned :
    abortControllers w !! i = Some (t_ctrl t) →
    t_phase t = Sending presigned →
    t_aborted t = false →
    ends_in_error w t (CancelUpload i) "Upload cancelled".

(** The statuses [clearCompleted] keeps. *)
Definition active (item : UploadItem) : Prop :=
  status item = StQueued ∨ status item = StUploading.

(** The statuses [clearCompleted] removes. *)
Definition terminal (item : UploadItem) : Prop :=
  status item = StComplete ∨ status item = StError.

(** The statuses the [progress] memo averages over. *)
Definition relevant (item : UploadItem) : Prop :=
  status item = StUploading ∨ status item = StComplete.

(** Neither ref holds anything for the id: no controller to abort, no
    admission marker. *)
Definition released (i : string) (w : Provider) : Prop :=
  abortControllers w !! i = None ∧ i ∉ uploadQueueRef w.

(** The records for which a task started an upload: those of the suspended
    calls that were not there before. *)
Definition started (w w' : Provider) : list UploadItem :=
  map t_item (drop (length (transfers w)) (transfers w')).

(** The average the specification speaks of: the mean of [progress] over
    the records that are uploading or complete. *)
Definition average_progress (l : list UploadItem) : Q :=
  let counted := filter relevant l in
  let total := foldr (λ item acc, progress item + acc) 0 counted in
  (inject_Z total / inject_Z (Z.of_nat (length counted)))%Q.

(** The message the [catch] clause stores in the record. *)
Definition stored_message (e : Thrown) : string :=
  if decide (message_of e = Some "Upload cancelled") then "Cancelled"
  else match e with ErrorObj m => m | OtherValue _ => "Upload failed" end.

(** The updater of [updateItem(i, { status: "error", error: m })], which is
    also the updater of [cancelUpload] for [m = "Cancelled"]. *)
Definition mark_error (i : string) (m : string) (item : UploadItem)
    : UploadItem :=
  if decide (id item = i)
  then spread item (mkUpdates (Some StError) None (Some (Some m)) None None)
  else item.

(** The only pending [catch] clauses are those of aborted uploads: the
    provider in the middle of a task that called [cancelUpload]. *)
Definition only_aborts_pending (w : Provider) : Prop :=
  Forall (λ t, ∀ e, t_phase t = Rejected e → e = ErrorObj "Upload cancelled")
    (transfers w).

(** Every record with id [j] is in error with the message of a cancelled
    upload. *)
Definition marked_cancelled (j : string) (l : list UploadItem) : Prop :=
  ∀ item, item ∈ l → id item = j →
    status item = StError ∧ error item = Some "Cancelled".

(** ** Sample data for the worked scenarios *)

Definition report_pdf : File.t := File.mk "report.pdf" "application/pdf" 2048.
Definition photo_png : File.t := File.mk "photo.png" "image/png" 4096.
Definition notes_txt : File.t := File.mk "notes.txt" "text/plain" 512.

Definition presigned_a : Presigned.t :=
  Presigned.mk "https://bucket.example/put/a" "PUT"
    [("Content-Type", "application/pdf")]
    "uploads/report.pdf" "https://cdn.example/uploads/report.pdf".

(** One upload at a time, automatic start as by default. *)
Definition one_at_a_time : Options := mkOptions true 1.

(** One upload at a time, started by [uploadFiles] only. *)
Definition manual_one_at_a_time : Options := mkOptions false 1.

(** A record for report.pdf with the given id, status and progress, as a
    render could show it. *)
Definition record (i : string) (s : UploadStatus) (p : Z) : UploadItem :=
  mkItem i "report.pdf" 2048 s p None None None "application/pdf" report_pdf.

(** One file added and admitted: its upload waits for the resolver. *)
Definition resolving_a : Provider :=
  run manual_one_at_a_time
    [AddFiles [("a", report_pdf)]; Render; UploadFiles None; Render] initial.

(** The same upload with its XHR in flight. *)
Definition sending_a : Provider :=
  run manual_one_at_a_time
    [TransferEv 0 (Fetched (ResponseOk presigned_a));
     TransferEv 0 (XhrProgress true 40); Render] resolving_a.

(** The same upload, finished. *)
Definition complete_a : Provider :=
  run manual_one_at_a_time [TransferEv 0 (XhrLoad 200); Render] sending_a.

(** ** Reachable providers and what they keep *)

(** The providers the event loop can produce: the initial one, and any
    task run on one of them. *)
Inductive reachable (opts : Options) : Provider → Prop :=
| reachable_initial : reachable opts initial
| reachable_step ev w :
    reachable opts w → reachable opts (step opts ev w).

(** A record is consistent with how [addFiles] and [uploadFile] write it:
    its metadata is that of its file, and it is complete only with the
    location the resolver gave. *)
Definition item_ok (item : UploadItem) : Prop :=
  fileName item = File.name (file item)
  ∧ size item = File.size (file item)
  ∧ contentType item = File.type (file item)
  ∧ (status item = StComplete → is_Some (url item) ∧ is_Some (key item)).

(** An update that sets a record complete also sets its location. *)
Definition update_ok (u : Updates) : Prop :=
  u_status u = Some StComplete → is_Some (u_url u) ∧ is_Some (u_key u).

(** What the two refs, the suspended calls and the records have to do with
    each other, at any point of a task. *)
Record consistent (w : Provider) : Prop := mkConsistent {
  ctrl_fresh : ∀ t, t ∈ transfers w → (t_ctrl t < next_ctrl w)%nat;
  ctrl_nodup : NoDup (map t_ctrl (transfers w));
  controllers_live : ∀ i c,
    abortControllers w !! i = Some c →
    ∃ t, t ∈ transfers w ∧ t_ctrl t = c ∧ id (t_item t) = i;
  markers_live : ∀ i,
    i ∈ uploadQueueRef w → ∃ t, t ∈ transfers w ∧ id (t_item t) = i;
  uploading_has_controller : ∀ item,
    item ∈ items w → status item = StUploading →
    is_Some (abortControllers w !! id item);
  items_ok : Forall item_ok (items w)
}.

(** The controller of [t] belongs to calls for the record of [t] only. *)
Definition owns (t : Transfer) (w : Provider) : Prop :=
  ∀ t', t' ∈ transfers w → t_ctrl t' = t_ctrl t →
    id (t_item t') = id (t_item t).

(** ** The hooks of [index.ts] that read the records *)

(** [useCompletedUploads()], for the records of the render. *)
Definition useCompletedUploads (l : list UploadItem) : list UploadItem :=
  filter (λ item, status item = StComplete) l.

(** The tasks that call [processQueue]. *)
Definition calls_processQueue (ev : Event) : bool :=
  match ev with
  | UploadFiles _ | TimerFires => true
  | _ => false
  end.

(** The tasks that run listeners and continuations of [uploadFile]. *)
Definition is_transfer_event (ev : Event) : bool :=
  match ev with
  | TransferEv _ _ => true
  | _ => false
  end.

(** Two files are being uploaded, one added while the other was already
    on its way; the provider allows two uploads at a time. *)
Definition two_at_a_time : Options := mkOptions false 2.

Definition uploading_a_b : Provider :=
  run two_at_a_time
    [AddFiles [("a", report_pdf)]; Render; UploadFiles None; Render;
     TransferEv 0 (Fetched (ResponseOk presigned_a));
     AddFiles [("b", photo_png); ("c", notes_txt)]; Render;
     UploadFiles None; Render] initial.

(** From [w] to [w'] no upload was started and no admission pass was
    scheduled: no new controller, no new suspended call, no new timer. *)
Definition quiet (w w' : Provider) : Prop :=
  next_ctrl w' = next_ctrl w
  ∧ map t_ctrl (transfers w') `sublist_of` map t_ctrl (transfers w)
  ∧ timers w' = timers w.

(** The tasks that schedule or run an admission pass. *)
Definition drives_queue (ev : Event) : bool :=
  match ev with
  | AddFiles _ | UploadFiles _ | RetryUpload _ | TimerFires => true
  | _ => false
  end.

(** The records a pass can choose from: the captured records that are
    queued and carry no admission marker. *)
Definition candidates (captured : list UploadItem) (w : Provider)
    : list UploadItem :=
  filter (λ item, status item = StQueued ∧ id item ∉ uploadQueueRef w)
    captured.

(** What [retryUpload] makes of a record. *)
Definition requeued (item : UploadItem) : UploadItem :=
  mkItem (id item) (fileName item) (size item) StQueued 0 None
    (url item) (key item) (contentType item) (file item).

(** Upload "a" has failed with a resolver error and the render shows it. *)
Definition failed_a : Provider :=
  run manual_one_at_a_time
    [TransferEv 0 (Fetched (ResponseNotOk (mkBody (Some "quota exceeded") None)));
     Render] resolving_a.

(** Every record with id [j] is uploading, at progress 0. *)
Definition marked_uploading (j : string) (l : list UploadItem) : Prop :=
  ∀ item, item ∈ l → id item = j →
    status item = StUploading ∧ progress item = 0.

From Stdlib Require Import Ascii.

(** ** [useUploadStats] ([index.ts]) *)

(** The object [useUploadStats] returns.  The counters and [totalBytes]
    are sums of integers; [uploadedBytes] adds [size * progress / 100]
    for the uploading records and is kept as an exact fraction. *)
Module Stats.
Record t := mk {
  total : Z;
  queued : Z;
  uploading : Z;
  complete : Z;
  error : Z;
  totalBytes : Z;
  uploadedBytes : Q
}.
End Stats.

(** The body of the loop of [useUploadStats]. *)
Definition stats_add (stats : Stats.t) (item : UploadItem) : Stats.t :=
  let stats :=
    match status item with
    | StQueued =>
        Stats.mk (Stats.total stats) (Stats.queued stats + 1)
          (Stats.uploading stats) (Stats.complete stats) (Stats.error stats)
          (Stats.totalBytes stats) (Stats.uploadedBytes stats)
    | StUploading =>
        Stats.mk (Stats.total stats) (Stats.queued stats)
          (Stats.uploading stats + 1) (Stats.complete stats)
          (Stats.error stats)
          (Stats.totalBytes stats) (Stats.uploadedBytes stats)
    | StComplete =>
        Stats.mk (Stats.total stats) (Stats.queued stats)
          (Stats.uploading stats) (Stats.complete stats + 1)
          (Stats.error stats)
          (Stats.totalBytes stats) (Stats.uploadedBytes stats)
    | StError =>
        Stats.mk (Stats.total stats) (Stats.queued stats)
          (Stats.uploading stats) (Stats.complete stats)
          (Stats.error stats + 1)
          (Stats.totalBytes stats) (Stats.uploadedBytes stats)
    end in
  let stats :=
    Stats.mk (Stats.total stats) (Stats.queued stats) (Stats.uploading stats)
      (Stats.complete stats) (Stats.error stats)
      (Stats.totalBytes stats + size item) (Stats.uploadedBytes stats) in
  let add_uploaded (q : Q) :=
    Stats.mk (Stats.total stats) (Stats.queued stats) (Stats.uploading stats)
      (Stats.complete stats) (Stats.error stats)
      (Stats.totalBytes stats) (Stats.uploadedBytes stats + q)%Q in
  if decide (status item = StComplete) then add_uploaded (inject_Z (size item))
  else if decide (status item = StUploading)
       then add_uploaded (inject_Z (size item * progress item) / 100)%Q
       else stats.

(** [useUploadStats()], for the records of the render. *)
Definition useUploadStats (l : list UploadItem) : Stats.t :=
  foldl stats_add (Stats.mk (Z.of_nat (length l)) 0 0 0 0 0 0%Q) l.

(** ** File selection ([utils.ts], [components/dropzone.tsx]) *)

(** The [accept] option: absent, a comma-separated string, or an array of
    patterns. *)
Inductive Accept :=
| AcceptAbsent
| AcceptString (s : string)
| AcceptArray (patterns : list string).

(** Strings as sequences of code units. *)
Definition chars (s : string) : list Ascii.ascii :=
  String.list_ascii_of_string s.

(** [s.startsWith(p)], [s.endsWith(p)], [s.includes(c)] for a single
    character, [s.slice(0, -1)]. *)
Definition startsWith (s p : string) : bool :=
  bool_decide (chars p `prefix_of` chars s).

Definition endsWith (s p : string) : bool :=
  bool_decide (chars p `suffix_of` chars s).

Definition includes_char (s : string) (c : Ascii.ascii) : bool :=
  bool_decide (c ∈ chars s).

Definition slice_0_minus1 (s : string) : string :=
  String.string_of_list_ascii (take (length (chars s) - 1) (chars s)).

(** [s.split(sep)] for a separator of one character. *)
Fixpoint split_on (sep : Ascii.ascii) (s : string) : list string :=
  match s with
  | EmptyString => [EmptyString]
  | String c rest =>
      if decide (c = sep) then EmptyString :: split_on sep rest
      else match split_on sep rest with
           | [] => [String c EmptyString]
           | token :: tokens => String c token :: tokens
           end
  end.

(** [!accept]: absent or the empty string; an array is never falsy. *)
Definition accept_falsy (accept : Accept) : bool :=
  match accept with
  | AcceptAbsent => true
  | AcceptString s => bool_decide (s = "")
  | AcceptArray _ => false
  end.

(** The options of [filterFiles]; [maxSize] is [None] when absent. *)
Record FilterOptions := mkFilterOptions {
  accept : Accept;
  maxSize : option Z
}.

(** [options.maxSize && ...]: absent and 0 are falsy. *)
Definition maxSize_limit (options : FilterOptions) : option Z :=
  match maxSize options with
  | Some m => if decide (m = 0) then None else Some m
  | None => None
  end.

Section Utils.

(** [String.prototype.toLowerCase], [String.prototype.trim] and
    [formatBytes] of [utils.ts] are taken as given. *)
Variable toLowerCase : string → string.
Variable trim : string → string.
Variable formatBytes : Z → string.

(** One iteration of the loop of [fileMatchesAccept]: whether it returns
    [true] for this pattern. *)
Definition pattern_matches (file : File.t) (pattern : string) : bool :=
  if startsWith pattern "." then
    endsWith (toLowerCase (File.name file)) (toLowerCase pattern)
  else if includes_char pattern "/"%char then
    if endsWith pattern "/*" then
      let prefix := slice_0_minus1 pattern in
      startsWith (File.type file) prefix
    else bool_decide (File.type file = pattern)
  else false.

(** The loop of [fileMatchesAccept], with its early return. *)
Fixpoint matches_any (file : File.t) (acceptArray : list string) : bool :=
  match acceptArray with
  | [] => false
  | pattern :: rest =>
      if pattern_matches file pattern then true else matches_any file rest
  end.

(** [fileMatchesAccept(file, accept)]. *)
Definition fileMatchesAccept (file : File.t) (accept : Accept) : bool :=
  if accept_falsy accept then true
  else
    let acceptArray :=
      match accept with
      | AcceptArray patterns => patterns
      | AcceptString s => map trim (split_on ","%char s)
      | AcceptAbsent => []
      end in
    matches_any file acceptArray.

(** The body of the loop of [filterFiles], on the pair of arrays it
    fills. *)
Definition filterFiles_step (options : FilterOptions)
    (acc : list File.t * list (File.t * string)) (file : File.t)
    : list File.t * list (File.t * string) :=
  let '(valid, rejected) := acc in
  match maxSize_limit options with
  | Some m =>
      if decide (File.size file > m) then
        (valid,
         rejected ++ [(file, "File too large (max " +:+ formatBytes m +:+ ")")])
      else if negb (accept_falsy (accept options))
              && negb (fileMatchesAccept file (accept options))
      then (valid, rejected ++ [(file, "File type not accepted")])
      else (valid ++ [file], rejected)
  | None =>
      if negb (accept_falsy (accept options))
         && negb (fileMatchesAccept file (accept options))
      then (valid, rejected ++ [(file, "File type not accepted")])
      else (valid ++ [file], rejected)
  end.

(** [filterFiles(files, options)]: the pair [(valid, rejected)]. *)
Definition filterFiles (files : list File.t) (options : FilterOptions)
    : list File.t * list (File.t * string) :=
  foldl (filterFiles_step options) ([], []) files.

(** [handleFiles(files)] of the dropzone, which is also what [handleChange]
    of the upload button does with the chosen files: the provider after the
    call.  [ids] are the results of the calls of [generateUploadId] that
    [addFiles] makes.  The console warning about rejected files and the
    [onFilesSelected] prop of the dropzone do not touch the provider. *)
Definition handleFiles (opts : Options) (options : FilterOptions)
    (ids : list string) (files : list File.t) (w : Provider) : Provider :=
  let '(valid, rejected) := filterFiles files options in
  if decide (0 < length valid)%nat
  then addFiles opts (rendered w) (zip ids valid) w
  else w.

(** [handleDrop(e)] of the dropzone, for the files of the drop. *)
Definition handleDrop (opts : Options) (disabled multiple : bool)
    (options : FilterOptions) (ids : list string) (files : list File.t)
    (w : Provider) : Provider :=
  if disabled then w
  else
    let filesToAdd := if multiple then files else slice0 files 1 in
    handleFiles opts options ids filesToAdd w.

End Utils.

(** Lower-casing of the letters A to Z, for the worked examples. *)
Definition ascii_lower (c : Ascii.ascii) : Ascii.ascii :=
  let n := Ascii.nat_of_ascii c in
  if decide (65 ≤ n ≤ 90)%nat then Ascii.ascii_of_nat (n + 32) else c.

Definition lower_ascii (s : string) : string :=
  String.string_of_list_ascii (map ascii_lower (chars s)).

Definition photo_JPG : File.t := File.mk "Holiday.JPG" "image/jpeg" 3000000.
Definition movie_mp4 : File.t := File.mk "clip.mp4" "video/mp4" 90000000.

(** Number of records with a given status. *)
Definition count_status (st : UploadStatus) (l : list UploadItem) : Z :=
  Z.of_nat (length (filter (λ item, status item = st) l)).

(** Sum of the sizes of the records. *)
Definition total_size (l : list UploadItem) : Z :=
  foldr (λ item acc, size item + acc) 0 l.

(** Whether [filterFiles] lets a file through: it is within the size
    limit, if there is one, and matches [accept], if there is one. *)
Definition passes (toLowerCase trim : string → string)
    (options : FilterOptions) (file : File.t) : bool :=
  match maxSize_limit options with
  | Some m => bool_decide (File.size file ≤ m)
  | None => true
  end
  && (accept_falsy (accept options)
      || fileMatchesAccept toLowerCase trim file (accept options)).

(** The reason [filterFiles] gives for a file it rejects: the size is
    checked first. *)
Definition rejection_reason (formatBytes : Z → string)
    (options : FilterOptions) (file : File.t) : string :=
  match maxSize_limit options with
  | Some m =>
      if decide (File.size file > m)
      then "File too large (max " +:+ formatBytes m +:+ ")"
      else "File type not accepted"
  | None => "File type not accepted"
  end.

(** * Properties *)

(** ** Lists *)

Lemma Forall_filter_keep {A} (P Q : A → Prop) `{∀ x, Decision (Q x)} l :
  Forall P l → Forall P (filter Q l).
Proof.
  rewrite !Forall_forall. intros Hl x [_ Hx]%list_elem_of_filter. auto.
Qed.

(** ** Effect of the [catch] and [finally] clauses on each component *)

Lemma items_uploadFile_catch t e w :
  items (uploadFile_catch t e w)
  = map (mark_error (id (t_item t)) (stored_message e)) (items w).
Proof.
  unfold uploadFile_catch, stored_message.
  destruct (decide (message_of e = Some "Upload cancelled")); [done|].
  by destruct e.
Qed.

Lemma transfers_uploadFile_catch t e w :
  transfers (uploadFile_catch t e w)
  = filter (λ t', t_ctrl t' ≠ t_ctrl t) (transfers w).
Proof.
  unfold uploadFile_catch.
  by destruct (decide (message_of e = Some "Upload cancelled")).
Qed.

Lemma callbacks_uploadFile_catch t e w :
  callbacks (uploadFile_catch t e w)
  = callbacks w ++
    (if decide (message_of e = Some "Upload cancelled") then []
     else [OnError (match e with
                    | ErrorObj _ => e
                    | OtherValue _ => ErrorObj "Upload failed"
                    end) (t_item t)]).
Proof.
  unfold uploadFile_catch.
  destruct (decide (message_of e = Some "Upload cancelled")); simpl.
  - by rewrite app_nil_r.
  - by destruct e.
Qed.

Lemma mark_error_id i m item : id (mark_error i m item) = id item.
Proof. unfold mark_error. by case_decide. Qed.

Lemma mark_error_hit i m item :
  id item = i →
  status (mark_error i m item) = StError ∧ error (mark_error i m item) = Some m.
Proof. intros Hi. unfold mark_error. by rewrite decide_True. Qed.

(** A record that already carries the message is a fixed point. *)
Lemma mark_error_fixed i m item :
  status item = StError → error item = Some m → mark_error i m item = item.
Proof.
  intros Hs He. unfold mark_error. case_decide; [|done].
  destruct item; simpl in *; by subst.
Qed.

(** ** Microtasks *)

Lemma run_microtasks_fold w : run_microtasks w = foldl microtask w (transfers w).
Proof. reflexivity. Qed.

Lemma foldl_microtask_invariant (P : Provider → Prop) l w :
  P w →
  (∀ w' t, t ∈ l → P w' → P (microtask w' t)) →
  P (foldl microtask w l).
Proof.
  revert w. induction l as [|t l IH]; intros w Hw Hstep; [done|].
  simpl. apply IH.
  - apply Hstep; [left | done].
  - intros w' t' Ht'. apply Hstep. by right.
Qed.

Lemma foldl_microtask_reaches (P : Provider → Prop) l w t :
  t ∈ l →
  (∀ w', P (microtask w' t)) →
  (∀ w' t', t' ∈ l → P w' → P (microtask w' t')) →
  P (foldl microtask w l).
Proof.
  revert w. induction l as [|t0 l IH]; intros w Ht Hest Hstep.
  - by apply elem_of_nil in Ht.
  - simpl. apply elem_of_cons in Ht as [->|Ht].
    + apply foldl_microtask_invariant; [apply Hest|].
      intros w' t' Ht'. apply Hstep. by right.
    + apply IH; [done | done |].
      intros w' t' Ht'. apply Hstep. by right.
Qed.

Lemma microtask_rejected w c item aborted e :
  microtask w (mkTransfer c item aborted (Rejected e))
  = uploadFile_catch (mkTransfer c item aborted (Rejected e)) e w.
Proof. reflexivity. Qed.

Lemma microtask_not_rejected w t :
  (∀ e, t_phase t ≠ Rejected e) → microtask w t = w.
Proof. unfold microtask. destruct (t_phase t); naive_solver. Qed.

(** Between tasks there is nothing to run. *)
Lemma run_microtasks_settled w : settled w → run_microtasks w = w.
Proof.
  intros Hs. rewrite run_microtasks_fold.
  unfold settled in Hs. revert Hs. generalize (transfers w) as l.
  intros l. revert w. induction l as [|t l IH]; intros w Hl; [done|].
  inversion Hl; subst. simpl. rewrite microtask_not_rejected; auto.
Qed.

Lemma transfers_microtask_sub w t t' :
  t' ∈ transfers (microtask w t) → t' ∈ transfers w.
Proof.
  unfold microtask. destruct (t_phase t); try done.
  rewrite transfers_uploadFile_catch. by intros [? ?]%list_elem_of_filter.
Qed.

(** Every pending [catch] clause runs: afterwards none is left. *)
Lemma run_microtasks_leaves_settled w : settled (run_microtasks w).
Proof.
  unfold settled. apply Forall_forall. intros t Ht e He.
  assert (Hin : t ∈ transfers w).
  { revert Ht. rewrite run_microtasks_fold.
    apply (foldl_microtask_invariant
             (λ w', t ∈ transfers w' → t ∈ transfers w)); [done|].
    intros w' t' _ IH Hin. by apply IH, (transfers_microtask_sub _ t'). }
  revert Ht. rewrite run_microtasks_fold.
  apply (foldl_microtask_reaches (λ w', t ∉ transfers w') _ _ t Hin).
  - intros w'. unfold microtask. rewrite He, transfers_uploadFile_catch.
    intros [Hne _]%list_elem_of_filter. by apply Hne.
  - intros w' t' _ Hnot Hin'. by apply Hnot, (transfers_microtask_sub _ t').
Qed.

Lemma step_settled opts ev w : settled (step opts ev w).
Proof. apply run_microtasks_leaves_settled. Qed.

Lemma run_settled opts evs w : settled w → settled (run opts evs w).
Proof.
  revert w. induction evs as [|ev evs IH]; intros w Hw; [done|].
  simpl. apply IH, step_settled.
Qed.

(** Between tasks, an operation that aborts nothing is the whole task. *)
Lemma step_settled_op opts ev w :
  settled w →
  match ev with
  | CancelUpload _ | RemoveItem _ | TransferEv _ _ | TimerFires
  | UploadFiles _ => True
  | Render => step opts ev w = set_rendered (items w) w
  | AddFiles files => step opts ev w = addFiles opts (rendered w) files w
  | RetryUpload i => step opts ev w = retryUpload (rendered w) i w
  | ClearCompleted => step opts ev w = clearCompleted w
  end.
Proof.
  intros Hs. destruct ev; try done; unfold step;
    apply run_microtasks_settled; try done.
  unfold addFiles. by destruct (autoUpload opts).
Qed.

(** ** [cancelUpload] *)

Lemma items_cancelUpload i w :
  items (cancelUpload i w) = map (mark_error i "Cancelled") (items w).
Proof. unfold cancelUpload. by destruct (abortControllers w !! i). Qed.

Lemma callbacks_cancelUpload i w : callbacks (cancelUpload i w) = callbacks w.
Proof. unfold cancelUpload. by destruct (abortControllers w !! i). Qed.

Lemma transfers_cancelUpload i w :
  transfers (cancelUpload i w)
  = match abortControllers w !! i with
    | Some c => map (abort_transfer c) (transfers w)
    | None => transfers w
    end.
Proof. unfold cancelUpload. by destruct (abortControllers w !! i). Qed.

Lemma abort_transfer_rejected c t e :
  (∀ e', t_phase t ≠ Rejected e') →
  t_phase (abort_transfer c t) = Rejected e → e = ErrorObj "Upload cancelled".
Proof.
  intros Hs. unfold abort_transfer.
  case_decide; [|naive_solver].
  destruct (t_aborted t); [naive_solver|].
  simpl. destruct (t_phase t); naive_solver.
Qed.

Lemma cancelUpload_only_aborts i w :
  settled w → only_aborts_pending (cancelUpload i w).
Proof.
  unfold settled, only_aborts_pending. intros Hs.
  rewrite transfers_cancelUpload.
  destruct (abortControllers w !! i) as [c|].
  - apply Forall_map. eapply Forall_impl; [exact Hs|].
    intros t Ht e. simpl. by apply abort_transfer_rejected.
  - eapply Forall_impl; [exact Hs|]. naive_solver.
Qed.

(** ** Microtasks after an abort *)

Lemma microtask_abort_cases w t :
  (∀ e, t_phase t = Rejected e → e = ErrorObj "Upload cancelled") →
  microtask w t = w
  ∨ microtask w t = uploadFile_catch t (ErrorObj "Upload cancelled") w.
Proof.
  intros H. unfold microtask. destruct (t_phase t) as [| |e]; auto.
  right. by rewrite (H e eq_refl).
Qed.

Lemma run_microtasks_aborts_invariant (P : Provider → Prop) w :
  only_aborts_pending w →
  P w →
  (∀ w' t, P w' → P (uploadFile_catch t (ErrorObj "Upload cancelled") w')) →
  P (run_microtasks w).
Proof.
  intros Ho HP Hstep. rewrite run_microtasks_fold.
  apply foldl_microtask_invariant; [done|].
  intros w' t Ht HP'.
  unfold only_aborts_pending in Ho.
  rewrite Forall_forall in Ho.
  destruct (microtask_abort_cases w' t (Ho t Ht)) as [-> | ->]; auto.
Qed.

Lemma run_microtasks_aborts_callbacks w :
  only_aborts_pending w → callbacks (run_microtasks w) = callbacks w.
Proof.
  intros Ho.
  apply (run_microtasks_aborts_invariant (λ w', callbacks w' = callbacks w));
    [done | done |].
  intros w' t IH. rewrite callbacks_uploadFile_catch. simpl.
  by rewrite app_nil_r.
Qed.

(** A record that [cancelUpload] has marked stays as it is while the
    aborted uploads unwind. *)
Lemma run_microtasks_aborts_lookup w n item :
  only_aborts_pending w →
  items w !! n = Some item →
  status item = StError → error item = Some "Cancelled" →
  items (run_microtasks w) !! n = Some item.
Proof.
  intros Ho Hn Hs He.
  apply (run_microtasks_aborts_invariant (λ w', items w' !! n = Some item));
    [done | done |].
  intros w' t IH. rewrite items_uploadFile_catch, list_lookup_fmap, IH.
  simpl. f_equal. by apply mark_error_fixed.
Qed.

Lemma marked_cancelled_map j i l :
  marked_cancelled j l → marked_cancelled j (map (mark_error i "Cancelled") l).
Proof.
  intros Hl item [item0 [-> Hin]]%list_elem_of_fmap Hid.
  rewrite mark_error_id in Hid. destruct (Hl item0 Hin Hid) as [Hs He].
  by rewrite mark_error_fixed.
Qed.

Lemma marked_cancelled_map_same j l :
  marked_cancelled j (map (mark_error j "Cancelled") l).
Proof.
  intros item [item0 [-> Hin]]%list_elem_of_fmap Hid.
  rewrite mark_error_id in Hid. by apply mark_error_hit.
Qed.

(** ** How an attempt ends in error *)

Lemma settled_uploadFile_catch t e w :
  settled w → settled (uploadFile_catch t e w).
Proof.
  unfold settled. rewrite transfers_uploadFile_catch.
  apply Forall_filter_keep.
Qed.

Lemma stored_message_error m :
  stored_message (ErrorObj m)
  = if decide (m = "Upload cancelled") then "Cancelled" else m.
Proof.
  unfold stored_message. simpl.
  destruct (decide (m = "Upload cancelled")) as [->|Hne].
  - by rewrite decide_True.
  - rewrite decide_False; [done | congruence].
Qed.

(** The [catch] clause, reached with an [Error] of message [m]. *)
Lemma uploadFile_catch_outcome t m w :
  let w' := uploadFile_catch t (ErrorObj m) w in
  (∀ t', t' ∈ transfers w' → t_ctrl t' ≠ t_ctrl t)
  ∧ callbacks w'
    = callbacks w ++
      (if decide (m = "Upload cancelled") then []
       else [OnError (ErrorObj m) (t_item t)])
  ∧ (∀ item, item ∈ items w' → id item = id (t_item t) →
       status item = StError
       ∧ error item
         = Some (if decide (m = "Upload cancelled") then "Cancelled" else m)).
Proof.
  cbv zeta. split; [|split].
  - intros t'. rewrite transfers_uploadFile_catch.
    by intros [? _]%list_elem_of_filter.
  - rewrite callbacks_uploadFile_catch. simpl.
    destruct (decide (m = "Upload cancelled")) as [->|Hne].
    + by rewrite decide_True.
    + rewrite decide_False; [done | congruence].
  - intros item. rewrite items_uploadFile_catch.
    intros [item0 [-> Hin]]%list_elem_of_fmap Hid.
    rewrite mark_error_id in Hid. rewrite <- stored_message_error.
    by apply mark_error_hit.
Qed.

(** A failure event takes the call that owns the controller to its
    [catch] clause. *)
Lemma on_transfer_event_fails w k t tev m :
  list_find (λ t', t_ctrl t' = t_ctrl t) (transfers w) = Some (k, t) →
  fails_with (t_phase t) tev m →
  on_transfer_event (t_ctrl t) tev w = uploadFile_catch t (ErrorObj m) w.
Proof.
  intros Hfind Hfail. unfold on_transfer_event. rewrite Hfind.
  inversion Hfail as [m' Hph Hev | body Hph Hev
                     | presigned xhr_status Hstatus Hph Hev
                     | presigned Hph Hev]; subst; try done.
  by rewrite decide_False.
Qed.

Lemma list_find_elem_of {A} (P : A → Prop) `{∀ x, Decision (P x)} l k x :
  list_find P l = Some (k, x) → x ∈ l.
Proof.
  intros (Hl & _ & _)%list_find_Some. by eapply list_elem_of_lookup_2.
Qed.

Lemma abort_transfer_in_flight c t presigned :
  t_ctrl t = c → t_phase t = Sending presigned → t_aborted t = false →
  abort_transfer c t
  = mkTransfer c (t_item t) true (Rejected (ErrorObj "Upload cancelled")).
Proof.
  intros Hc Hph Hab. unfold abort_transfer.
  by rewrite decide_True, Hab, Hph.
Qed.

(** Whatever ends an attempt in error, the call returns, and the message
    alone decides between the two branches of the [catch] clause. *)
Lemma step_ends_in_error opts w k t ev m :
  settled w →
  list_find (λ t', t_ctrl t' = t_ctrl t) (transfers w) = Some (k, t) →
  ends_in_error w t ev m →
  let w' := step opts ev w in
  (∀ t', t' ∈ transfers w' → t_ctrl t' ≠ t_ctrl t)
  ∧ callbacks w'
    = callbacks w ++
      (if decide (m = "Upload cancelled") then []
       else [OnError (ErrorObj m) (t_item t)])
  ∧ (∀ item, item ∈ items w' → id item = id (t_item t) →
       status item = StError
       ∧ error item
         = Some (if decide (m = "Upload cancelled") then "Cancelled" else m)).
Proof.
  intros Hs Hfind Hend. cbv zeta.
  destruct Hend as [tev m Hfail | i presigned Hctrl Hph Hab].
  - unfold step. rewrite (on_transfer_event_fails w k t tev m Hfind Hfail).
    rewrite run_microtasks_settled by by apply settled_uploadFile_catch.
    apply uploadFile_catch_outcome.
  - unfold step.
    pose proof (cancelUpload_only_aborts i w Hs) as Ho.
    set (w1 := cancelUpload i w) in *.
    set (t1 := mkTransfer (t_ctrl t) (t_item t) true
                 (Rejected (ErrorObj "Upload cancelled"))).
    assert (Hin1 : t1 ∈ transfers w1).
    { unfold w1. rewrite transfers_cancelUpload, Hctrl.
      apply list_elem_of_fmap. exists t. split.
      - symmetry. by eapply abort_transfer_in_flight.
      - by eapply list_find_elem_of. }
    rewrite decide_True by done.
    split; [|split].
    + rewrite run_microtasks_fold.
      apply (foldl_microtask_reaches
               (λ w', ∀ t', t' ∈ transfers w' → t_ctrl t' ≠ t_ctrl t)
               _ _ t1 Hin1).
      * intros w' t'. unfold t1. rewrite microtask_rejected.
        rewrite transfers_uploadFile_catch.
        by intros [? _]%list_elem_of_filter.
      * intros w' t2 _ IH t' Hin'. eapply IH, transfers_microtask_sub, Hin'.
    + rewrite run_microtasks_aborts_callbacks by done.
      unfold w1. by rewrite callbacks_cancelUpload, app_nil_r.
    + rewrite run_microtasks_fold.
      assert (Hall : ∀ t2, t2 ∈ transfers w1 →
                ∀ e, t_phase t2 = Rejected e → e = ErrorObj "Upload cancelled").
      { intros t2 Ht2. unfold only_aborts_pending in Ho.
        rewrite Forall_forall in Ho. by apply Ho. }
      apply (foldl_microtask_reaches
               (λ w', marked_cancelled (id (t_item t)) (items w'))
               _ _ t1 Hin1).
      * intros w'. unfold t1. rewrite microtask_rejected.
        rewrite items_uploadFile_catch.
        apply marked_cancelled_map_same.
      * intros w' t2 Ht2 IH.
        destruct (microtask_abort_cases w' t2 (Hall t2 Ht2)) as [-> | ->];
          [done|].
        rewrite items_uploadFile_catch. by apply marked_cancelled_map.
Qed.

(** ** What the end of an attempt releases *)

Lemma released_uploadFile_catch t e w :
  released (id (t_item t)) (uploadFile_catch t e w).
Proof.
  unfold released, uploadFile_catch.
  destruct (decide (message_of e = Some "Upload cancelled")); simpl;
    (split; [apply lookup_delete_eq |]);
    intros [_ Hne]%elem_of_difference; by apply Hne, elem_of_singleton.
Qed.

Lemma released_uploadFile_catch_mono i t e w :
  released i w → released i (uploadFile_catch t e w).
Proof.
  intros [Hc Hq]. unfold released, uploadFile_catch.
  destruct (decide (message_of e = Some "Upload cancelled")); simpl;
    (split; [by apply lookup_delete_None; right |]);
    by intros [Hin _]%elem_of_difference.
Qed.

(** An attempt that ends in error gives back its controller and its
    admission marker. *)
Lemma step_ends_in_error_releases opts w k t ev m :
  settled w →
  list_find (λ t', t_ctrl t' = t_ctrl t) (transfers w) = Some (k, t) →
  ends_in_error w t ev m →
  released (id (t_item t)) (step opts ev w).
Proof.
  intros Hs Hfind Hend.
  destruct Hend as [tev m Hfail | i presigned Hctrl Hph Hab].
  - unfold step. rewrite (on_transfer_event_fails w k t tev m Hfind Hfail).
    rewrite run_microtasks_settled by by apply settled_uploadFile_catch.
    apply released_uploadFile_catch.
  - unfold step.
    set (t1 := mkTransfer (t_ctrl t) (t_item t) true
                 (Rejected (ErrorObj "Upload cancelled"))).
    assert (Hin1 : t1 ∈ transfers (cancelUpload i w)).
    { rewrite transfers_cancelUpload, Hctrl.
      apply list_elem_of_fmap. exists t. split.
      - symmetry. by eapply abort_transfer_in_flight.
      - by eapply list_find_elem_of. }
    rewrite run_microtasks_fold.
    apply (foldl_microtask_reaches (released (id (t_item t))) _ _ t1 Hin1).
    + intros w'. unfold t1. rewrite microtask_rejected.
      apply (released_uploadFile_catch
               (mkTransfer (t_ctrl t) (t_item t) true
                  (Rejected (ErrorObj "Upload cancelled")))).
    + intros w' t2 _ IH. unfold microtask.
      destruct (t_phase t2); try done.
      by apply released_uploadFile_catch_mono.
Qed.

(** ** Reachable providers are settled *)

Lemma initial_settled : settled initial.
Proof. apply Forall_nil_2. Qed.

Lemma resolving_a_settled : settled resolving_a.
Proof. apply run_settled, initial_settled. Qed.

Lemma sending_a_settled : settled sending_a.
Proof. apply run_settled, resolving_a_settled. Qed.

Lemma complete_a_settled : settled complete_a.
Proof. apply run_settled, sending_a_settled. Qed.

(** * Cancellation *)

(** What [cancelUpload(id)] does to the record with that id, whatever its
    status: once the task is over the record is in error with the message
    "Cancelled", every other field as before. *)
Lemma step_cancelUpload_lookup opts w n item :
  settled w →
  items w !! n = Some item →
  items (step opts (CancelUpload (id item)) w) !! n
  = Some (mkItem (id item) (fileName item) (size item) StError
            (progress item) (Some "Cancelled") (url item) (key item)
            (contentType item) (file item)).
Proof.
  intros Hs Hn. unfold step.
  apply run_microtasks_aborts_lookup;
    [by apply cancelUpload_only_aborts| |done|done].
  rewrite items_cancelUpload, list_lookup_fmap, Hn. simpl. f_equal.
  unfold mark_error. by rewrite decide_True.
Qed.

(** C3, counterexample.  The upload of record "a" has finished and the
    render shows it complete; [cancelUpload("a")] then turns the record
    into an error: the completion does not win. *)
Lemma cancelUpload_complete_counterexample :
  map status (items complete_a) = [StComplete]
  ∧ transfers complete_a = []
  ∧ map status (items (step manual_one_at_a_time (CancelUpload "a") complete_a))
    ≠ [StComplete].
Proof. split; [|split]; [reflexivity | reflexivity | vm_compute; discriminate]. Qed.

(** C3, as amended.  [cancelUpload(id)] on a record that is already
    complete sets its status to error and its error to "Cancelled"; the
    stored location ([key], [url]), the progress and every other field of
    the record stay as they were. *)
Theorem cancelUpload_overrides_complete opts w n item :
  settled w →
  items w !! n = Some item →
  status item = StComplete →
  items (step opts (CancelUpload (id item)) w) !! n
  = Some (mkItem (id item) (fileName item) (size item) StError
            (progress item) (Some "Cancelled") (url item) (key item)
            (contentType item) (file item)).
Proof. intros Hs Hn _. by apply step_cancelUpload_lookup. Qed.

Lemma cancelUpload_overrides_complete_witness :
  items (step manual_one_at_a_time (CancelUpload "a") complete_a) !! 0%nat
  = Some (mkItem "a" "report.pdf" 2048 StError 100 (Some "Cancelled")
            (Some "https://cdn.example/uploads/report.pdf")
            (Some "uploads/report.pdf") "application/pdf" report_pdf).
Proof.
  apply (cancelUpload_overrides_complete manual_one_at_a_time complete_a 0
           (mkItem "a" "report.pdf" 2048 StComplete 100 None
              (Some "https://cdn.example/uploads/report.pdf")
              (Some "uploads/report.pdf") "application/pdf" report_pdf)).
  - apply complete_a_settled.
  - reflexivity.
  - reflexivity.
Defined.

(** C4, the failing case.  Record "a" is uploading and its upload still
    waits for the resolver.  [cancelUpload("a")] marks the record as
    cancelled, but the controller has no listener yet and the resolver
    request does not carry its signal: the call stays suspended, the
    controller stays in the map and the admission marker stays set.  When
    the resolver answers, the XHR is sent all the same, and on its success
    the cancelled record becomes complete and [onUploadComplete] is
    called. *)
Theorem cancelUpload_while_resolving :
  let w := step manual_one_at_a_time (CancelUpload "a") resolving_a in
  let w' := run manual_one_at_a_time
              [TransferEv 0 (Fetched (ResponseOk presigned_a));
               TransferEv 0 (XhrLoad 200); Render] w in
  map status (items resolving_a) = [StUploading]
  ∧ map (λ item, (status item, error item)) (items w)
    = [(StError, Some "Cancelled")]
  ∧ map (λ t, (id (t_item t), t_phase t, t_aborted t)) (transfers w)
    = [("a", Resolving, true)]
  ∧ abortControllers w !! "a" = Some 0%nat
  ∧ "a" ∈ uploadQueueRef w
  ∧ map (λ item, (status item, progress item, error item)) (rendered w')
    = [(StComplete, 100, Some "Cancelled")]
  ∧ map (λ c, match c with
              | OnUploadComplete item => Some (id item)
              | OnError _ _ => None
              end) (callbacks w')
    = [Some "a"].
Proof.
  cbv zeta. split_and!; reflexivity.
Qed.

(** * Error reporting *)

(** Once the call that owns a controller has returned, the runtime has
    nothing left to deliver to it. *)
Lemma step_transfer_event_gone opts c tev w :
  settled w →
  (∀ t, t ∈ transfers w → t_ctrl t ≠ c) →
  step opts (TransferEv c tev) w = w.
Proof.
  intros Hs Hgone. unfold step, on_transfer_event.
  destruct (list_find (λ t, t_ctrl t = c) (transfers w)) as [[k t]|] eqn:Hfind.
  - apply list_find_Some in Hfind as (Hk & Hc & _).
    destruct (Hgone t); [by eapply list_elem_of_lookup_2 | done].
  - by apply run_microtasks_settled.
Qed.

(** C6, counterexample.  The resolver rejects the request for record "a"
    with a 403 whose body is [{"error": "Upload cancelled"}].  This is a
    resolution failure, yet [onError] is not called and the record's error
    is "Cancelled", not the failure message. *)
Lemma resolver_failure_unreported_counterexample :
  let tev := Fetched (ResponseNotOk (mkBody (Some "Upload cancelled") None)) in
  let w' := step manual_one_at_a_time (TransferEv 0 tev) resolving_a in
  map (λ t, (t_ctrl t, t_phase t, t_aborted t)) (transfers resolving_a)
  = [(0%nat, Resolving, false)]
  ∧ fails_with Resolving tev "Upload cancelled"
  ∧ callbacks w' = []
  ∧ map (λ item, (status item, error item)) (items w')
    = [(StError, Some "Cancelled")]
  ∧ Some "Cancelled" ≠ Some "Upload cancelled".
Proof.
  cbv zeta. split_and!; try reflexivity.
  - apply (fails_response (mkBody (Some "Upload cancelled") None)).
  - discriminate.
Qed.

(** C6, as amended.  An upload attempt that ends in error does so with a
    message: that of the resolution or transport failure, or "Upload
    cancelled" when [cancelUpload] aborts the XHR.  If the message is not
    exactly "Upload cancelled", [onError] is invoked exactly once, with
    the failure and the item the attempt was started with, and the
    record's error is the failure message.  If the message is "Upload
    cancelled", the record's error is "Cancelled" and [onError] is not
    invoked.  Either way the attempt is over: the call has returned, and
    no later event of its transfer changes anything. *)
Theorem uploadFile_error_reporting opts w k t ev m :
  settled w →
  list_find (λ t', t_ctrl t' = t_ctrl t) (transfers w) = Some (k, t) →
  ends_in_error w t ev m →
  let w' := step opts ev w in
  (∀ t', t' ∈ transfers w' → t_ctrl t' ≠ t_ctrl t)
  ∧ (∀ tev, step opts (TransferEv (t_ctrl t) tev) w' = w')
  ∧ (∀ item, item ∈ items w' → id item = id (t_item t) →
       status item = StError)
  ∧ if decide (m = "Upload cancelled")
    then callbacks w' = callbacks w
         ∧ (∀ item, item ∈ items w' → id item = id (t_item t) →
              error item = Some "Cancelled")
    else callbacks w' = callbacks w ++ [OnError (ErrorObj m) (t_item t)]
         ∧ (∀ item, item ∈ items w' → id item = id (t_item t) →
              error item = Some m).
Proof.
  intros Hs Hfind Hend.
  destruct (step_ends_in_error opts w k t ev m Hs Hfind Hend)
    as (Hgone & Hcb & Hrec).
  cbv zeta. split; [done|]. split; [|split].
  - intros tev. apply step_transfer_event_gone; [apply step_settled | done].
  - intros item Hin Hid. by destruct (Hrec item Hin Hid).
  - destruct (decide (m = "Upload cancelled")).
    + rewrite app_nil_r in Hcb. split; [done|].
      intros item Hin Hid. by destruct (Hrec item Hin Hid).
    + split; [done|].
      intros item Hin Hid. by destruct (Hrec item Hin Hid).
Qed.

(** The theorem at three endings of the upload of record "a": the
    resolver answers 500 with [{"message": "bucket is read-only"}]; the
    upload is answered with status 403; the user cancels while the XHR is
    in flight. *)
Lemma uploadFile_error_reporting_witness :
  (let w' := step manual_one_at_a_time
               (TransferEv 0
                  (Fetched (ResponseNotOk
                              (mkBody None (Some "bucket is read-only")))))
               resolving_a in
   callbacks w'
   = [OnError (ErrorObj "bucket is read-only") (record "a" StQueued 0)]
   ∧ map error (items w') = [Some "bucket is read-only"])
  ∧ (let w' := step manual_one_at_a_time (TransferEv 0 (XhrLoad 403))
                 sending_a in
     callbacks w'
     = [OnError (ErrorObj "Upload failed with status 403")
          (record "a" StQueued 0)]
     ∧ map error (items w') = [Some "Upload failed with status 403"])
  ∧ (let w' := step manual_one_at_a_time (CancelUpload "a") sending_a in
     callbacks w' = []
     ∧ map error (items w') = [Some "Cancelled"]
     ∧ transfers w' = []).
Proof.
  pose (t0 := mkTransfer 0 (record "a" StQueued 0) false Resolving).
  pose (t1 := mkTransfer 0 (record "a" StQueued 0) false (Sending presigned_a)).
  split; [|split].
  - pose proof (uploadFile_error_reporting manual_one_at_a_time resolving_a
                  0 t0
                  (TransferEv 0
                     (Fetched (ResponseNotOk
                                 (mkBody None (Some "bucket is read-only")))))
                  "bucket is read-only"
                  resolving_a_settled eq_refl
                  (error_by_failure resolving_a t0 _ _
                     (fails_response
                        (mkBody None (Some "bucket is read-only")))))
      as (_ & _ & _ & Hcb & _).
    split; [exact Hcb | reflexivity].
  - assert (Hstatus : ¬ (200 ≤ 403 < 300)) by lia.
    pose proof (uploadFile_error_reporting manual_one_at_a_time sending_a
                  0 t1 (TransferEv 0 (XhrLoad 403))
                  "Upload failed with status 403"
                  sending_a_settled eq_refl
                  (error_by_failure sending_a t1 _ _
                     (fails_upload_status presigned_a 403 Hstatus)))
      as (_ & _ & _ & Hcb & _).
    split; [exact Hcb | reflexivity].
  - pose proof (uploadFile_error_reporting manual_one_at_a_time sending_a
                  0 t1 (CancelUpload "a") "Upload cancelled"
                  sending_a_settled eq_refl
                  (error_by_cancel sending_a t1 "a" presigned_a
                     eq_refl eq_refl eq_refl))
      as (_ & _ & _ & Hcb & _).
    split; [exact Hcb | split; reflexivity].
Defined.

(** C10.  The [catch] clause classifies by message alone.  A failure whose
    message is exactly "Upload cancelled", raised for an upload nobody
    cancelled, puts the record in error with the message "Cancelled" and
    does not reach [onError]; and a non-2xx resolver response with the body
    [{"error": "Upload cancelled"}] is such a failure, whatever else the
    body holds. *)
Theorem upload_cancelled_message_is_cancellation opts w k t tev :
  settled w →
  list_find (λ t', t_ctrl t' = t_ctrl t) (transfers w) = Some (k, t) →
  t_aborted t = false →
  fails_with (t_phase t) tev "Upload cancelled" →
  let w' := step opts (TransferEv (t_ctrl t) tev) w in
  callbacks w' = callbacks w
  ∧ (∀ item, item ∈ items w' → id item = id (t_item t) →
       status item = StError ∧ error item = Some "Cancelled")
  ∧ (∀ body_message,
       fails_with Resolving
         (Fetched (ResponseNotOk (mkBody (Some "Upload cancelled") body_message)))
         "Upload cancelled").
Proof.
  intros Hs Hfind _ Hfail.
  destruct (step_ends_in_error opts w k t _ _ Hs Hfind
              (error_by_failure w t tev _ Hfail)) as (_ & Hcb & Hrec).
  cbv zeta. rewrite decide_True, app_nil_r in Hcb by done.
  split; [done|]. split.
  { intros item Hin Hid. destruct (Hrec item Hin Hid) as [Hst Herr].
    by rewrite decide_True in Herr. }
  intros body_message.
  apply (fails_response (mkBody (Some "Upload cancelled") body_message)).
Qed.

Lemma upload_cancelled_message_is_cancellation_witness :
  let tev :=
    Fetched (ResponseNotOk (mkBody (Some "Upload cancelled") (Some "denied"))) in
  let w' := step manual_one_at_a_time (TransferEv 0 tev) resolving_a in
  callbacks w' = []
  ∧ map (λ item, (id item, status item, error item)) (items w')
    = [("a", StError, Some "Cancelled")].
Proof.
  pose (t0 := mkTransfer 0 (record "a" StQueued 0) false Resolving).
  pose proof (upload_cancelled_message_is_cancellation manual_one_at_a_time
                resolving_a 0 t0
                (Fetched (ResponseNotOk
                            (mkBody (Some "Upload cancelled") (Some "denied"))))
                resolving_a_settled eq_refl eq_refl
                (fails_response
                   (mkBody (Some "Upload cancelled") (Some "denied"))))
    as (Hcb & _).
  split; [exact Hcb | reflexivity].
Defined.

(** ** One admission pass over the current records *)

Lemma items_uploadFile item w :
  items (uploadFile item w)
  = map (λ item', if decide (id item' = id item)
                  then spread item'
                         (mkUpdates (Some StUploading) (Some 0) None None None)
                  else item') (items w).
Proof. reflexivity. Qed.

Lemma map_id_started (i : string) (u : Updates) (l : list UploadItem) :
  map id (map (λ item', if decide (id item' = i) then spread item' u
                        else item') l)
  = map id l.
Proof.
  induction l as [|item l IH]; [done|].
  simpl. rewrite IH. by case_decide.
Qed.

Lemma uploadingCount_cons item l :
  uploadingCount (item :: l)
  = ((if decide (status item = StUploading) then 1 else 0)
     + uploadingCount l)%nat.
Proof.
  unfold uploadingCount. rewrite filter_cons. by case_decide.
Qed.

Lemma uploadingCount_start_absent (i : string) (u : Updates)
    (l : list UploadItem) :
  i ∉ map id l →
  map (λ item', if decide (id item' = i) then spread item' u else item') l = l.
Proof.
  induction l as [|item l IH]; [done|].
  intros Hnot. simpl. apply not_elem_of_cons in Hnot as [Hne Hnot].
  rewrite decide_False by done. by rewrite IH.
Qed.

(** With unique ids, starting one upload raises the count by at most one. *)
Lemma uploadingCount_start (i : string) (u : Updates) (l : list UploadItem) :
  NoDup (map id l) →
  (uploadingCount
     (map (λ item', if decide (id item' = i) then spread item' u else item') l)
   ≤ S (uploadingCount l))%nat.
Proof.
  induction l as [|item l IH]; [simpl; lia|].
  intros [Hnot Hnd]%NoDup_cons. simpl map.
  destruct (decide (id item = i)) as [Hid|Hid].
  - subst i. rewrite uploadingCount_start_absent by done.
    rewrite !uploadingCount_cons. repeat case_decide; lia.
  - specialize (IH Hnd). rewrite !uploadingCount_cons. lia.
Qed.

Lemma foldl_start_count (l : list UploadItem) w :
  NoDup (map id (items w)) →
  let w' := foldl (λ w item,
                     uploadFile item
                       (set_uploadQueueRef (λ s, {[id item]} ∪ s) w)) w l in
  NoDup (map id (items w'))
  ∧ (uploadingCount (items w') ≤ uploadingCount (items w) + length l)%nat.
Proof.
  revert w. induction l as [|item l IH]; intros w Hnd; cbv zeta.
  - simpl. split; [done | lia].
  - simpl foldl.
    set (w1 := uploadFile item
                 (set_uploadQueueRef (λ s, {[id item]} ∪ s) w)).
    assert (Hnd1 : NoDup (map id (items w1))).
    { unfold w1. rewrite items_uploadFile. simpl. by rewrite map_id_started. }
    destruct (IH w1 Hnd1) as [Hnd' Hcount]. split; [done|].
    assert (uploadingCount (items w1) ≤ S (uploadingCount (items w)))%nat.
    { unfold w1. rewrite items_uploadFile. simpl.
      by apply uploadingCount_start. }
    simpl length. lia.
Qed.

Lemma length_slice0 {A} (l : list A) (stop : Z) :
  0 ≤ stop → Z.of_nat (length (slice0 l stop)) ≤ stop.
Proof.
  intros Hstop. unfold slice0. rewrite decide_False by lia.
  rewrite length_take. lia.
Qed.

(** The admission pass as the code intends it: run on the records as they
    currently are, with unique ids and the limit respected so far, it
    starts no more uploads than there are free slots. *)
Lemma processQueue_current_bounded opts w :
  NoDup (map id (items w)) →
  Z.of_nat (uploadingCount (items w)) ≤ maxConcurrent opts →
  Z.of_nat (uploadingCount (items (processQueue opts (items w) w)))
  ≤ maxConcurrent opts.
Proof.
  intros Hnd Hbound. unfold processQueue. cbv zeta.
  match goal with
  | |- context [foldl ?f w ?l] =>
      destruct (foldl_start_count l w Hnd) as [_ Hcount];
      pose proof (length_slice0
                    (filter (λ item, status item = StQueued
                                     ∧ id item ∉ uploadQueueRef w) (items w))
                    (maxConcurrent opts
                     - Z.of_nat (length (filter (λ item, status item = StUploading)
                                           (items w))))) as Hlen
  end.
  unfold uploadingCount in *. lia.
Qed.

(** ** What an admission pass can touch *)

Lemma settled_uploadFile item w : settled w → settled (uploadFile item w).
Proof.
  unfold settled, uploadFile. simpl. intros Hs.
  apply Forall_app. split; [done|].
  apply Forall_singleton. by intros e.
Qed.

Lemma settled_processQueue opts captured w :
  settled w → settled (processQueue opts captured w).
Proof.
  unfold processQueue. cbv zeta.
  generalize (slice0
                (filter (λ item, status item = StQueued
                                 ∧ id item ∉ uploadQueueRef w) captured)
                (maxConcurrent opts
                 - Z.of_nat (length (filter (λ item, status item = StUploading)
                                       captured)))).
  intros l. revert w. induction l as [|item l IH]; intros w Hs; [done|].
  simpl. apply IH. by apply settled_uploadFile.
Qed.

Lemma foldl_start_untouched (l : list UploadItem) w n item :
  items w !! n = Some item →
  id item ∉ map id l →
  items (foldl (λ w item,
                  uploadFile item
                    (set_uploadQueueRef (λ s, {[id item]} ∪ s) w)) w l) !! n
  = Some item.
Proof.
  revert w. induction l as [|item' l IH]; intros w Hn Hnot; [done|].
  simpl in Hnot. apply not_elem_of_cons in Hnot as [Hne Hnot].
  simpl foldl. apply IH; [|done].
  rewrite items_uploadFile. simpl. rewrite list_lookup_fmap, Hn. simpl.
  by rewrite decide_False.
Qed.

Lemma slice0_subseteq {A} (l : list A) (stop : Z) : slice0 l stop ⊆ l.
Proof.
  unfold slice0. case_decide; apply sublist_subseteq, sublist_take.
Qed.

(** A pass starts uploads only for records its closure has captured:
    a record whose id is not among them is left as it is. *)
Lemma processQueue_untouched opts captured w n item :
  items w !! n = Some item →
  id item ∉ map id captured →
  items (processQueue opts captured w) !! n = Some item.
Proof.
  intros Hn Hnot. unfold processQueue. cbv zeta.
  apply foldl_start_untouched; [done|].
  intros [item' [Hid Hin]]%list_elem_of_fmap. apply Hnot.
  apply list_elem_of_fmap. exists item'. split; [done|].
  apply slice0_subseteq in Hin. by apply list_elem_of_filter in Hin as [_ ?].
Qed.

(** The pass that [addFiles] schedules never starts the records that
    this [addFiles] appended, in whatever state the provider was: the
    closure it runs captured the records of the render before the append. *)
Lemma addFiles_pass_skips_new_records opts w files k f :
  settled w →
  timers w = [] →
  autoUpload opts = true →
  files !! k = Some f →
  f.1 ∉ map id (rendered w) →
  items (run opts [AddFiles files; Render; TimerFires] w)
    !! (length (items w) + k)%nat
  = Some (new_item f).
Proof.
  intros Hs Htimers Hauto Hk Hfresh. unfold run. simpl foldl.
  rewrite (step_settled_op opts (AddFiles files) w Hs).
  unfold addFiles. rewrite Hauto. cbv zeta.
  set (w1 := set_timers _ _).
  assert (Hs1 : settled w1) by done.
  rewrite (step_settled_op opts Render w1 Hs1).
  set (w2 := set_rendered _ _).
  assert (Hs2 : settled w2) by done.
  unfold step. replace (timers w2) with [rendered w]
    by (unfold w2, w1; simpl; by rewrite Htimers).
  rewrite run_microtasks_settled by by apply settled_processQueue.
  apply processQueue_untouched; [|done].
  simpl. rewrite lookup_app_r by lia.
  replace (length (items w) + k - length (items w))%nat with k by lia.
  by rewrite list_lookup_fmap, Hk.
Qed.

(** ** What a pass starts *)

Lemma foldl_start_transfers (l : list UploadItem) w :
  let w' := foldl (λ w item,
                     uploadFile item
                       (set_uploadQueueRef (λ s, {[id item]} ∪ s) w)) w l in
  map t_item (transfers w') = map t_item (transfers w) ++ l
  ∧ ∀ i, i ∈ uploadQueueRef w' ↔ i ∈ uploadQueueRef w ∨ i ∈ map id l.
Proof.
  revert w. induction l as [|item l IH]; intros w; cbv zeta.
  - simpl. split; [by rewrite app_nil_r|].
    intros i. rewrite elem_of_nil. tauto.
  - simpl foldl.
    destruct (IH (uploadFile item
                    (set_uploadQueueRef (λ s, {[id item]} ∪ s) w)))
      as [Htr Hq].
    split.
    + rewrite Htr. simpl. rewrite map_app. simpl. by rewrite <- app_assoc.
    + intros i. rewrite Hq. simpl.
      rewrite elem_of_union, elem_of_singleton, elem_of_cons. tauto.
Qed.

(** The uploads a pass starts are for captured records that were queued
    and carried no marker; each of them carries one afterwards, and the
    markers that were set stay set.  So no pass starts an upload for a
    record that an earlier pass has started and that has not finished:
    the marker does what it is there for. *)
Lemma processQueue_started opts captured w :
  let w' := processQueue opts captured w in
  Forall (λ item, item ∈ captured ∧ status item = StQueued
                  ∧ (id item ∉ uploadQueueRef w)
                  ∧ id item ∈ uploadQueueRef w') (started w w')
  ∧ uploadQueueRef w ⊆ uploadQueueRef w'.
Proof.
  cbv zeta. unfold processQueue. cbv zeta.
  set (l := slice0 _ _).
  destruct (foldl_start_transfers l w) as [Htr Hq].
  set (w' := foldl _ w l) in *.
  assert (Hstarted : started w w' = l).
  { unfold started. change map with (@fmap list _). rewrite fmap_drop.
    change (@fmap list _) with map. rewrite Htr.
    rewrite <- (length_map t_item). by rewrite drop_app_length. }
  rewrite Hstarted. split.
  - apply Forall_forall. intros item Hin.
    assert (Hid : id item ∈ uploadQueueRef w').
    { apply Hq. right. apply list_elem_of_fmap. by exists item. }
    unfold l in Hin. apply slice0_subseteq in Hin.
    apply list_elem_of_filter in Hin as [[Hst Hnot] Hcap]. done.
  - intros i Hi. apply Hq. by left.
Qed.

(** * Admission *)

(** A render that shows no record admits nothing. *)
Lemma processQueue_nil opts w : processQueue opts [] w = w.
Proof.
  unfold processQueue, slice0. cbv zeta. rewrite !filter_nil.
  case_decide; by rewrite take_nil.
Qed.

Lemma uploadingCount_new_items files :
  uploadingCount (map new_item files) = 0%nat.
Proof.
  unfold uploadingCount. induction files as [|f files IH]; [done|].
  simpl. by rewrite filter_cons_False.
Qed.

(** C1, the failing case.  One upload at a time.  Two files are queued and
    shown; the application then calls [uploadFiles([notes.txt])], as the
    README does.  [addFiles] schedules an admission pass and [uploadFiles]
    runs one at once, both through the [processQueue] of the same render.
    The immediate pass admits "a".  When the timer fires, its pass still
    reads the records as that render showed them: no record uploading, so
    one free slot, and "a" is skipped only because of its marker; it admits
    "b".  The next render shows two records uploading. *)
Theorem uploading_count_exceeds_maxConcurrent :
  let w := run one_at_a_time
             [AddFiles [("a", report_pdf); ("b", photo_png)]; Render;
              TimerFires;
              UploadFiles (Some [("c", notes_txt)]); Render;
              TimerFires; Render] initial in
  maxConcurrent one_at_a_time = 1
  ∧ map (λ item, (id item, status item)) (rendered w)
    = [("a", StUploading); ("b", StUploading); ("c", StQueued)]
  ∧ uploadingCount (rendered w) = 2%nat
  ∧ map (λ t, (id (t_item t), t_phase t)) (transfers w)
    = [("a", Resolving); ("b", Resolving)].
Proof. cbv zeta. split_and!; reflexivity. Qed.

(** C2, the failing case.  With automatic upload and any concurrency
    limit, files added to a fresh provider are all still queued after the
    render and the admission pass that [addFiles] scheduled: the timer
    runs the [processQueue] of the render in which [addFiles] was called,
    whose [items] does not contain the new records.  No upload has
    started and no further pass is scheduled. *)
Theorem addFiles_deferred_pass_is_stale limit files :
  let w := run (mkOptions true limit) [AddFiles files; Render; TimerFires]
             initial in
  items w = map new_item files
  ∧ Forall (λ item, status item = StQueued) (items w)
  ∧ uploadingCount (items w) = 0%nat
  ∧ transfers w = []
  ∧ timers w = [].
Proof.
  cbv zeta.
  assert (Hrun : run (mkOptions true limit) [AddFiles files; Render; TimerFires]
                   initial
                 = mkProvider (map new_item files) (map new_item files)
                     ∅ ∅ [] 0 [] []).
  { unfold run, step. simpl. rewrite processQueue_nil. reflexivity. }
  rewrite Hrun. simpl.
  assert (Hq : Forall (λ item, status item = StQueued) (map new_item files)).
  { apply Forall_map, Forall_true. done. }
  split_and!; try done.
  apply uploadingCount_new_items.
Qed.

(** With the default options (three uploads at a time), five files dropped
    on a fresh provider: none starts. *)
Example addFiles_default_options :
  let w := run default_options
             [AddFiles [("a", report_pdf); ("b", photo_png); ("c", notes_txt);
                        ("d", report_pdf); ("e", photo_png)];
              Render; TimerFires; Render] initial in
  map status (rendered w) = [StQueued; StQueued; StQueued; StQueued; StQueued]
  ∧ isUploading (rendered w) = false
  ∧ transfers w = []
  ∧ timers w = [].
Proof. cbv zeta. split_and!; reflexivity. Qed.

(** C5, the failing case.  One upload at a time, two queued records, and
    [processQueue] called twice by the same render with nothing in
    between.  The first call admits "a"; the second reads the same
    [items], still counts no upload, and admits "b". *)
Theorem processQueue_twice_starts_more :
  let w0 := run manual_one_at_a_time
              [AddFiles [("a", report_pdf); ("b", photo_png)]; Render]
              initial in
  let w1 := processQueue manual_one_at_a_time (rendered w0) w0 in
  let w2 := processQueue manual_one_at_a_time (rendered w1) w1 in
  rendered w1 = rendered w0
  ∧ map (λ t, id (t_item t)) (transfers w0) = []
  ∧ map (λ t, id (t_item t)) (transfers w1) = ["a"]
  ∧ map (λ t, id (t_item t)) (transfers w2) = ["a"; "b"]
  ∧ map (λ item, (id item, status item)) (items w2)
    = [("a", StUploading); ("b", StUploading)].
Proof. cbv zeta. split_and!; reflexivity. Qed.

(** * Clearing and retrying *)

Lemma kept_iff_active item :
  status item ≠ StComplete ∧ status item ≠ StError ↔ active item.
Proof. unfold active. destruct (status item); intuition congruence. Qed.

Lemma terminal_iff_not_kept item :
  terminal item ↔ ¬ (status item ≠ StComplete ∧ status item ≠ StError).
Proof. unfold terminal. destruct (status item); intuition congruence. Qed.

Lemma filter_clearCompleted_active (l : list UploadItem) :
  filter active
    (filter (λ item, status item ≠ StComplete ∧ status item ≠ StError) l)
  = filter active l.
Proof. apply list_filter_filter_l. intros item. apply kept_iff_active. Qed.

Lemma filter_clearCompleted_terminal (l : list UploadItem) :
  filter terminal
    (filter (λ item, status item ≠ StComplete ∧ status item ≠ StError) l)
  = [].
Proof.
  induction l as [|item l IH]; [done|].
  rewrite filter_cons. case_decide as Hkept; [|done].
  rewrite filter_cons_False; [done|].
  rewrite terminal_iff_not_kept. tauto.
Qed.

Lemma clearCompleted_partition (l : list UploadItem) :
  filter (λ item, status item ≠ StComplete ∧ status item ≠ StError) l
  ++ filter terminal l ≡ₚ l.
Proof.
  rewrite (list_filter_iff terminal _ l terminal_iff_not_kept).
  apply filter_app_complement.
Qed.

(** C8.  [clearCompleted] removes exactly the records that are complete or
    in error, in every state of the provider.  A record is in the store
    afterwards iff it was there and is queued or uploading; the store
    afterwards is the list of the queued and uploading records of the
    store before, so each of them keeps its place among them and all of
    its fields; the store afterwards is a sublist of
    the store before; what was removed is the list of the complete and
    error records; and nothing else in the provider changes. *)
Theorem clearCompleted_removes_terminal w :
  let w' := clearCompleted w in
  (∀ item, item ∈ items w' ↔ item ∈ items w ∧ active item)
  ∧ items w' = filter active (items w)
  ∧ filter active (items w') = filter active (items w)
  ∧ filter terminal (items w') = []
  ∧ sublist (items w') (items w)
  ∧ items w' ++ filter terminal (items w) ≡ₚ items w
  ∧ rendered w' = rendered w
  ∧ abortControllers w' = abortControllers w
  ∧ uploadQueueRef w' = uploadQueueRef w
  ∧ transfers w' = transfers w
  ∧ timers w' = timers w
  ∧ callbacks w' = callbacks w.
Proof.
  cbv zeta. unfold clearCompleted. simpl. split_and!; try done.
  - intros item. rewrite list_elem_of_filter, kept_iff_active. tauto.
  - apply list_filter_iff, kept_iff_active.
  - apply filter_clearCompleted_active.
  - apply filter_clearCompleted_terminal.
  - apply sublist_filter.
  - apply clearCompleted_partition.
Qed.

(** A store with one complete, one error, one uploading and one queued
    record. *)
Example clearCompleted_mixed_store :
  map (λ item, (id item, status item, progress item))
    (items (clearCompleted
              (set_items (λ _, [record "a" StComplete 100;
                                record "b" StUploading 40;
                                record "c" StError 13;
                                record "d" StQueued 0]) initial)))
  = [("b", StUploading, 40); ("d", StQueued, 0)].
Proof. reflexivity. Qed.

(** C9.  [retryUpload(id)] does not look at the status.  Whatever the
    status of the record with that id, it becomes queued with progress 0
    and no error, its other fields unchanged; records with another id are
    not touched; an admission pass is scheduled, through the
    [processQueue] of the render the call was made from; and the suspended
    uploads, the controllers and the admission markers are left alone, so
    an upload of that record that is in flight goes on. *)
Theorem retryUpload_requeues_any_status opts w n item :
  settled w →
  items w !! n = Some item →
  let w' := step opts (RetryUpload (id item)) w in
  items w' !! n
  = Some (mkItem (id item) (fileName item) (size item) StQueued 0 None
            (url item) (key item) (contentType item) (file item))
  ∧ (∀ k other, items w !! k = Some other → id other ≠ id item →
       items w' !! k = Some other)
  ∧ length (items w') = length (items w)
  ∧ timers w' = timers w ++ [rendered w]
  ∧ transfers w' = transfers w
  ∧ abortControllers w' = abortControllers w
  ∧ uploadQueueRef w' = uploadQueueRef w
  ∧ callbacks w' = callbacks w.
Proof.
  intros Hs Hn. cbv zeta.
  rewrite (step_settled_op opts (RetryUpload (id item)) w Hs).
  unfold retryUpload. simpl. split_and!; try done.
  - rewrite list_lookup_fmap, Hn. simpl. by rewrite decide_True.
  - intros k other Hk Hne. rewrite list_lookup_fmap, Hk. simpl.
    by rewrite decide_False.
  - by rewrite length_map.
Qed.

(** The theorem at a record that is uploading, its XHR in flight. *)
Lemma retryUpload_requeues_any_status_witness :
  let w' := step manual_one_at_a_time (RetryUpload "a") sending_a in
  map (λ item, (id item, status item, progress item)) (items sending_a)
  = [("a", StUploading, 40)]
  ∧ items w' !! 0%nat = Some (record "a" StQueued 0)
  ∧ map (λ t, (id (t_item t), t_phase t)) (transfers w')
    = [("a", Sending presigned_a)]
  ∧ length (timers w') = 1%nat.
Proof.
  pose proof (retryUpload_requeues_any_status manual_one_at_a_time sending_a 0
                (record "a" StUploading 40) sending_a_settled eq_refl)
    as (Hitem & _).
  cbv zeta. split; [reflexivity|]. split; [exact Hitem|].
  split; reflexivity.
Defined.

(** * Overall progress *)

Lemma Math_round_bounds q :
  (q - (1 # 2) < inject_Z (Math_round q))%Q
  ∧ (inject_Z (Math_round q) <= q + (1 # 2))%Q.
Proof.
  unfold Math_round.
  pose proof (Qfloor_le (q + (1 # 2))) as Hle.
  pose proof (Qlt_floor (q + (1 # 2))) as Hlt.
  rewrite inject_Z_plus in Hlt. split; [|exact Hle].
  change (inject_Z 1) with 1%Q in Hlt. lra.
Qed.

Lemma total_progress_foldl (l : list UploadItem) a :
  foldl (λ acc item, acc + progress item) a l
  = a + foldr (λ item acc, progress item + acc) 0 l.
Proof.
  revert a. induction l as [|item l IH]; intros a; simpl; [lia|].
  rewrite IH. lia.
Qed.

(** The memo rounds the mean of the specification. *)
Lemma progress_view_round (l : list UploadItem) :
  filter relevant l ≠ [] →
  progress_view l = Math_round (average_progress l).
Proof.
  intros Hne. unfold progress_view, average_progress. cbv zeta.
  fold relevant. rewrite decide_False.
  - by rewrite total_progress_foldl, Z.add_0_l.
  - by destruct (filter relevant l).
Qed.

Lemma progress_view_none (l : list UploadItem) :
  filter relevant l = [] → progress_view l = 0.
Proof.
  intros Hnil. unfold progress_view. cbv zeta. fold relevant.
  by rewrite Hnil.
Qed.

(** Only the uploading and complete records count. *)
Lemma progress_view_filter (l l' : list UploadItem) :
  filter relevant l = filter relevant l' → progress_view l = progress_view l'.
Proof.
  intros Heq. unfold progress_view. cbv zeta. fold relevant. by rewrite Heq.
Qed.

(** C7, counterexample.  One complete record (progress 100) and one
    uploading record (progress 41): the average is 141/2, the memo is 71. *)
Lemma progress_view_not_average_counterexample :
  let l := [record "a" StComplete 100; record "b" StUploading 41] in
  (average_progress l == 141 # 2)%Q
  ∧ progress_view l = 71
  ∧ ¬ (inject_Z (progress_view l) == average_progress l)%Q.
Proof.
  cbv zeta. split; [reflexivity|]. split; [reflexivity|].
  vm_compute. discriminate.
Qed.

(** C7, as amended.  The memo is 0 when no record is uploading or
    complete; otherwise it is the average of [progress] over the uploading
    and complete records rounded to the nearest integer, a half rounding
    up: the integer [p] with [average - 1/2 < p <= average + 1/2].
    Records that are queued or in error do not count: putting one anywhere
    in the list leaves the value as it is.  One complete record at 100 and
    one uploading record at 40 give 70, with or without a queued record. *)
Theorem progress_view_rounded_average (l l1 l2 : list UploadItem)
    (q : UploadItem) :
  status q = StQueued ∨ status q = StError →
  match filter relevant l with
  | [] => progress_view l = 0
  | _ :: _ =>
      (average_progress l - (1 # 2) < inject_Z (progress_view l))%Q
      ∧ (inject_Z (progress_view l) <= average_progress l + (1 # 2))%Q
  end
  ∧ progress_view (l1 ++ q :: l2) = progress_view (l1 ++ l2)
  ∧ progress_view [record "a" StComplete 100; record "b" StUploading 40] = 70
  ∧ progress_view [record "a" StComplete 100; record "b" StUploading 40;
                   record "c" StQueued 0] = 70.
Proof.
  intros Hq. split; [|split; [|split; reflexivity]].
  - destruct (filter relevant l) as [|item rest] eqn:Hrel.
    + by apply progress_view_none.
    + rewrite progress_view_round by (rewrite Hrel; done).
      apply Math_round_bounds.
  - apply progress_view_filter.
    rewrite !filter_app, filter_cons_False; [done|].
    unfold relevant. destruct Hq as [-> | ->]; intuition congruence.
Qed.

Lemma progress_view_rounded_average_witness :
  let l := [record "a" StComplete 100; record "b" StUploading 41] in
  ((141 # 2) - (1 # 2) < inject_Z (progress_view l))%Q
  ∧ (inject_Z (progress_view l) <= (141 # 2) + (1 # 2))%Q
  ∧ progress_view (l ++ [record "c" StError 13]) = progress_view l.
Proof.
  pose proof (progress_view_rounded_average
                [record "a" StComplete 100; record "b" StUploading 41]
                [record "a" StComplete 100; record "b" StUploading 41] []
                (record "c" StError 13) (or_intror eq_refl))
    as ([Hlo Hhi] & Hskip & _).
  cbv zeta. split; [|split].
  - exact Hlo.
  - exact Hhi.
  - rewrite app_nil_r in Hskip. exact Hskip.
Defined.

(** * Invariants of the provider *)

Lemma NoDup_map_elem_inj {A B} (f : A → B) (l : list A) x y :
  NoDup (map f l) → x ∈ l → y ∈ l → f x = f y → x = y.
Proof.
  intros Hnd [i Hi]%list_elem_of_lookup [j Hj]%list_elem_of_lookup Hf.
  assert (i = j) as ->.
  { apply (NoDup_lookup (map f l) i j (f x) Hnd).
    - by rewrite list_lookup_fmap, Hi.
    - by rewrite list_lookup_fmap, Hj, Hf. }
  congruence.
Qed.

(** ** Records under updates *)

Lemma item_ok_spread item u :
  item_ok item → update_ok u → item_ok (spread item u).
Proof.
  intros (Hn & Hs & Hc & Hloc) Hu. unfold item_ok. simpl.
  split_and!; try done.
  intros Hst. destruct (u_status u) as [st|] eqn:Hust; simpl in Hst.
  - subst st. destruct (Hu Hust) as [[x ->] [y ->]]. simpl. eauto.
  - destruct (Hloc Hst) as [Hurl Hkey].
    destruct (u_url u), (u_key u); simpl; eauto.
Qed.

Lemma item_ok_new_item f : item_ok (new_item f).
Proof. unfold item_ok. simpl. split_and!; done. Qed.

Lemma elem_of_update_items i u (l : list UploadItem) item' :
  item' ∈ map (λ item, if decide (id item = i) then spread item u else item) l →
  ∃ item, item ∈ l ∧ id item' = id item
    ∧ ((id item = i ∧ item' = spread item u) ∨ (id item ≠ i ∧ item' = item)).
Proof.
  intros [item [-> Hin]]%list_elem_of_fmap. exists item.
  split; [done|]. case_decide; eauto.
Qed.

(** ** Each primitive keeps the provider consistent *)

Lemma consistent_updateItem i u w :
  consistent w →
  update_ok u →
  (u_status u = Some StUploading → is_Some (abortControllers w !! i)) →
  consistent (updateItem i u w).
Proof.
  intros [Hf Hn Hc Hm Hu Hi] Hok Hup.
  split; simpl; try done.
  - intros item' (item & Hin & Hid & Hcase)%elem_of_update_items Hst.
    rewrite Hid. destruct Hcase as [[Heq ->] | [Hne ->]]; [|by apply Hu].
    simpl in Hst. destruct (u_status u) as [st|] eqn:Hust; simpl in Hst.
    + subst st. rewrite Heq. by apply Hup.
    + by apply Hu.
  - apply Forall_map. eapply Forall_impl; [exact Hi|].
    intros item Hitem. simpl. case_decide; [by apply item_ok_spread | done].
Qed.

Lemma consistent_filter_items (P : UploadItem → Prop)
    `{∀ item, Decision (P item)} w :
  consistent w → consistent (set_items (filter P) w).
Proof.
  intros [Hf Hn Hc Hm Hu Hi]. split; simpl; try done.
  - intros item [_ Hin]%list_elem_of_filter. by apply Hu.
  - by apply Forall_filter_keep.
Qed.

Lemma consistent_append_items files w :
  consistent w →
  consistent (set_items (λ prev, prev ++ map new_item files) w).
Proof.
  intros [Hf Hn Hc Hm Hu Hi]. split; simpl; try done.
  - intros item [Hin | Hin]%elem_of_app; [by apply Hu|].
    apply list_elem_of_fmap in Hin as [f [-> _]]. done.
  - apply Forall_app. split; [done|].
    apply Forall_map, Forall_true. intros f. apply item_ok_new_item.
Qed.

Lemma consistent_set_timers f w : consistent w → consistent (set_timers f w).
Proof. by intros []. Qed.

Lemma consistent_set_rendered l w : consistent w → consistent (set_rendered l w).
Proof. by intros []. Qed.

Lemma consistent_log_callback c w : consistent w → consistent (log_callback c w).
Proof. by intros []. Qed.

(** Changing where calls are suspended, not which calls there are. *)
Lemma consistent_map_transfers (f : Transfer → Transfer) w :
  (∀ t, t_ctrl (f t) = t_ctrl t ∧ t_item (f t) = t_item t) →
  consistent w → consistent (set_transfers (map f) w).
Proof.
  intros Hkeep [Hf Hn Hc Hm Hu Hi]. split; simpl; try done.
  - intros t' [t [-> Hin]]%list_elem_of_fmap.
    destruct (Hkeep t) as [-> _]. by apply Hf.
  - rewrite <- list_fmap_compose.
    erewrite (list_fmap_ext (t_ctrl ∘ f) t_ctrl); [done|].
    intros k t _. apply Hkeep.
  - intros i c Hic. destruct (Hc i c Hic) as (t & Hin & Hct & Hid).
    exists (f t). destruct (Hkeep t) as [Hk1 Hk2].
    split; [by apply list_elem_of_fmap_2|]. by rewrite Hk1, Hk2.
  - intros i Hi'. destruct (Hm i Hi') as (t & Hin & Hid).
    exists (f t). destruct (Hkeep t) as [_ Hk2].
    split; [by apply list_elem_of_fmap_2|]. by rewrite Hk2.
Qed.

Lemma consistent_start item w :
  consistent w →
  consistent (uploadFile item (set_uploadQueueRef (λ s, {[id item]} ∪ s) w)).
Proof.
  intros [Hf Hn Hc Hm Hu Hi]. split; simpl.
  - intros t [Hin | ->%list_elem_of_singleton]%elem_of_app; simpl; [|lia].
    specialize (Hf t Hin). lia.
  - rewrite map_app. simpl. apply NoDup_app. split; [done|]. split.
    + intros c [t [-> Hin]]%list_elem_of_fmap Heq%list_elem_of_singleton.
      specialize (Hf t Hin). lia.
    + apply NoDup_singleton.
  - intros i c. rewrite lookup_insert. case_decide as Hid.
    + intros [= <-]. eexists. split; [apply elem_of_app; right; left|]. done.
    + intros Hic. destruct (Hc i c Hic) as (t & Hin & Ht).
      exists t. split; [apply elem_of_app; by left | done].
  - intros i [->%elem_of_singleton | Hin]%elem_of_union.
    + eexists. split; [apply elem_of_app; right; left|]. done.
    + destruct (Hm i Hin) as (t & Hint & Ht).
      exists t. split; [apply elem_of_app; by left | done].
  - intros item' (item0 & Hin & Hid & Hcase)%elem_of_update_items Hst.
    rewrite Hid, lookup_insert. case_decide; [done|].
    destruct Hcase as [[Heq _] | [_ ->]]; [congruence|]. by apply Hu.
  - apply Forall_map. eapply Forall_impl; [exact Hi|].
    intros item0 Hitem. simpl. case_decide; [|done].
    by apply item_ok_spread.
Qed.

Lemma consistent_finally t w :
  consistent w →
  owns t w →
  (∀ item, item ∈ items w → id item = id (t_item t) →
     status item ≠ StUploading) →
  consistent (uploadFile_finally t w).
Proof.
  intros [Hf Hn Hc Hm Hu Hi] Hown Hidle. split; simpl; try done.
  - intros t' [_ Hin]%list_elem_of_filter. by apply Hf.
  - eapply sublist_NoDup; [exact Hn|].
    apply (fmap_sublist t_ctrl), sublist_filter.
  - intros i c [Hne Hic]%lookup_delete_Some.
    destruct (Hc i c Hic) as (t' & Hin & Hct & Hid).
    exists t'. split; [|done]. apply list_elem_of_filter. split; [|done].
    intros Heq. apply Hne. rewrite <- Hid. symmetry. by apply Hown.
  - intros i [Hin Hne]%elem_of_difference.
    destruct (Hm i Hin) as (t' & Hint & Hid).
    exists t'. split; [|done]. apply list_elem_of_filter. split; [|done].
    intros Heq. apply Hne, elem_of_singleton. rewrite <- Hid. by apply Hown.
  - intros item Hin Hst. rewrite lookup_delete_ne; [by apply Hu|].
    intros Heq. by apply (Hidle item Hin).
Qed.

Lemma owns_updateItem t i u w : owns t w → owns t (updateItem i u w).
Proof. done. Qed.

Lemma updateItem_leaves_idle i u w st :
  u_status u = Some st → st ≠ StUploading →
  ∀ item, item ∈ items (updateItem i u w) → id item = i →
    status item ≠ StUploading.
Proof.
  intros Hst Hne item' (item & Hin & Hid & Hcase)%elem_of_update_items Hi.
  destruct Hcase as [[_ ->] | [Hne' _]]; [|congruence].
  simpl. by rewrite Hst.
Qed.

Lemma consistent_catch t e w :
  consistent w → owns t w → consistent (uploadFile_catch t e w).
Proof.
  intros Hw Hown. unfold uploadFile_catch. cbv zeta.
  case_decide.
  - apply consistent_finally; [|done|].
    + by apply consistent_updateItem.
    + by eapply updateItem_leaves_idle.
  - apply consistent_finally; [|done|].
    + by apply consistent_log_callback, consistent_updateItem.
    + intros item Hin. simpl in Hin. revert item Hin.
      by eapply updateItem_leaves_idle.
Qed.

Lemma consistent_complete t presigned w :
  consistent w → owns t w → consistent (uploadFile_complete t presigned w).
Proof.
  intros Hw Hown. unfold uploadFile_complete. cbv zeta.
  apply consistent_finally; [|done|].
  - apply consistent_log_callback, consistent_updateItem; [done| |done].
    intros _. simpl. eauto.
  - intros item Hin. simpl in Hin. revert item Hin.
    by eapply updateItem_leaves_idle.
Qed.

(** With distinct controllers, a call that is suspended owns its own. *)
Lemma consistent_owns t w : consistent w → t ∈ transfers w → owns t w.
Proof.
  intros [_ Hn _ _ _ _] Hin t' Hin' Hct.
  by rewrite (NoDup_map_elem_inj t_ctrl (transfers w) t' t).
Qed.

(** ** Each operation keeps the provider consistent *)

Lemma consistent_processQueue opts captured w :
  consistent w → consistent (processQueue opts captured w).
Proof.
  unfold processQueue. cbv zeta.
  generalize (slice0
                (filter (λ item, status item = StQueued
                                 ∧ id item ∉ uploadQueueRef w) captured)
                (maxConcurrent opts
                 - Z.of_nat (length (filter (λ item, status item = StUploading)
                                       captured)))).
  intros l. revert w. induction l as [|item l IH]; intros w Hw; [done|].
  simpl. by apply IH, consistent_start.
Qed.

Lemma consistent_addFiles opts captured files w :
  consistent w → consistent (addFiles opts captured files w).
Proof.
  intros Hw. unfold addFiles. cbv zeta.
  destruct (autoUpload opts).
  - by apply consistent_set_timers, consistent_append_items.
  - by apply consistent_append_items.
Qed.

Lemma consistent_uploadFiles opts captured files w :
  consistent w → consistent (uploadFiles opts captured files w).
Proof.
  intros Hw. unfold uploadFiles. cbv zeta. apply consistent_processQueue.
  destruct files; [by apply consistent_addFiles | done].
Qed.

Lemma abort_transfer_keeps c t :
  t_ctrl (abort_transfer c t) = t_ctrl t
  ∧ t_item (abort_transfer c t) = t_item t.
Proof.
  unfold abort_transfer. case_decide as Hc; [|done].
  destruct (t_aborted t); [done|]. simpl. by rewrite Hc.
Qed.

Lemma cancelUpload_unfold i w :
  cancelUpload i w
  = updateItem i
      (mkUpdates (Some StError) None (Some (Some "Cancelled")) None None)
      match abortControllers w !! i with
      | Some controller => abort controller w
      | None => w
      end.
Proof. reflexivity. Qed.

Lemma consistent_cancelUpload i w :
  consistent w → consistent (cancelUpload i w).
Proof.
  intros Hw. rewrite cancelUpload_unfold.
  apply consistent_updateItem; [|done|done].
  destruct (abortControllers w !! i) as [c|]; [|done].
  apply consistent_map_transfers; [|done]. apply abort_transfer_keeps.
Qed.

Lemma consistent_removeItem i w : consistent w → consistent (removeItem i w).
Proof.
  intros Hw. unfold removeItem. cbv zeta.
  by apply consistent_filter_items, consistent_cancelUpload.
Qed.

Lemma retryUpload_unfold captured i w :
  retryUpload captured i w
  = set_timers (λ ts, ts ++ [captured])
      (updateItem i
         (mkUpdates (Some StQueued) (Some 0) (Some None) None None) w).
Proof. reflexivity. Qed.

Lemma consistent_retryUpload captured i w :
  consistent w → consistent (retryUpload captured i w).
Proof.
  intros Hw. rewrite retryUpload_unfold.
  by apply consistent_set_timers, consistent_updateItem.
Qed.

Lemma consistent_clearCompleted w : consistent w → consistent (clearCompleted w).
Proof. apply consistent_filter_items. Qed.

Lemma consistent_on_transfer_event c tev w :
  consistent w → consistent (on_transfer_event c tev w).
Proof.
  intros Hw. unfold on_transfer_event.
  destruct (list_find (λ t, t_ctrl t = c) (transfers w)) as [[k t]|] eqn:Hfind;
    [|done].
  assert (Hown : owns t w).
  { apply consistent_owns; [done|]. by eapply list_find_elem_of. }
  destruct (t_phase t) as [|presigned|e], tev as [r|[] percent|xhr_status|];
    try done.
  - destruct (getPresignedUrl r) as [e|presigned].
    + by apply consistent_catch.
    + apply consistent_map_transfers; [|done].
      intros t'. case_decide as Hc; [|done]. simpl. by rewrite Hc.
  - by apply consistent_updateItem.
  - case_decide; [by apply consistent_complete | by apply consistent_catch].
  - by apply consistent_catch.
Qed.

Lemma consistent_run_microtasks w :
  consistent w → consistent (run_microtasks w).
Proof.
  intros Hw. rewrite run_microtasks_fold.
  cut (consistent (foldl microtask w (transfers w))
       ∧ ∀ t, t ∈ transfers (foldl microtask w (transfers w)) →
              t ∈ transfers w); [by intros []|].
  apply (foldl_microtask_invariant
           (λ w', consistent w' ∧ ∀ t, t ∈ transfers w' → t ∈ transfers w));
    [done|].
  intros w' t Hin [Hw' Hsub]. split.
  - unfold microtask. destruct (t_phase t); try done.
    apply consistent_catch; [done|].
    intros t' Hin' Hct.
    by rewrite (NoDup_map_elem_inj t_ctrl (transfers w) t' t
                  (ctrl_nodup w Hw) (Hsub t' Hin') Hin Hct).
  - intros t' Hin'. by apply Hsub, (transfers_microtask_sub _ t).
Qed.

Lemma consistent_step opts ev w : consistent w → consistent (step opts ev w).
Proof.
  intros Hw. unfold step. apply consistent_run_microtasks.
  destruct ev.
  - by apply consistent_set_rendered.
  - by apply consistent_addFiles.
  - by apply consistent_uploadFiles.
  - by apply consistent_cancelUpload.
  - by apply consistent_removeItem.
  - by apply consistent_retryUpload.
  - by apply consistent_clearCompleted.
  - destruct (timers w); [done|].
    by apply consistent_processQueue, consistent_set_timers.
  - by apply consistent_on_transfer_event.
Qed.

Lemma consistent_initial : consistent initial.
Proof.
  split; simpl.
  - intros t Hin. by apply elem_of_nil in Hin.
  - apply NoDup_nil_2.
  - intros i c Hic. by rewrite lookup_empty in Hic.
  - intros i Hin. by apply not_elem_of_empty in Hin.
  - intros item Hin. by apply elem_of_nil in Hin.
  - apply Forall_nil_2.
Qed.

(** Every provider the event loop produces is consistent, and between two
    tasks no [catch] clause is pending. *)
Lemma reachable_consistent opts w :
  reachable opts w → consistent w ∧ settled w.
Proof.
  induction 1 as [|ev w Hr [Hc Hs]].
  - split; [apply consistent_initial | apply initial_settled].
  - split; [by apply consistent_step | apply step_settled].
Qed.

Lemma reachable_run opts evs w :
  reachable opts w → reachable opts (run opts evs w).
Proof.
  revert w. induction evs as [|ev evs IH]; intros w Hw; [done|].
  simpl. by apply IH, reachable_step.
Qed.

(** ** Sample providers are reachable *)

Lemma reachable_resolving_a : reachable manual_one_at_a_time resolving_a.
Proof. apply reachable_run, reachable_initial. Qed.

Lemma reachable_sending_a : reachable manual_one_at_a_time sending_a.
Proof. apply reachable_run, reachable_resolving_a. Qed.

Lemma reachable_complete_a : reachable manual_one_at_a_time complete_a.
Proof. apply reachable_run, reachable_sending_a. Qed.

Lemma reachable_uploading_a_b : reachable two_at_a_time uploading_a_b.
Proof. apply reachable_run, reachable_initial. Qed.

(** * What every reachable provider satisfies *)

(** X1.  The two refs never leak.  In every provider the event loop can
    produce, a controller stored under an id is the controller of a
    suspended [uploadFile] call for that id, and an id in [uploadQueueRef]
    is the id of a suspended call; so when no call is suspended both refs
    are empty. *)
Theorem refs_hold_suspended_calls_only opts w :
  reachable opts w →
  (∀ i c, abortControllers w !! i = Some c →
     ∃ t, t ∈ transfers w ∧ t_ctrl t = c ∧ id (t_item t) = i)
  ∧ (∀ i, i ∈ uploadQueueRef w →
       ∃ t, t ∈ transfers w ∧ id (t_item t) = i)
  ∧ (transfers w = [] → abortControllers w = ∅ ∧ uploadQueueRef w = ∅).
Proof.
  intros [Hw _]%reachable_consistent.
  split; [apply (controllers_live w Hw)|].
  split; [apply (markers_live w Hw)|].
  intros Hnil. split.
  - apply map_eq. intros i. rewrite lookup_empty.
    destruct (abortControllers w !! i) as [c|] eqn:Hic; [|done].
    destruct (controllers_live w Hw i c Hic) as (t & Hin & _).
    rewrite Hnil in Hin. by apply elem_of_nil in Hin.
  - apply set_eq. intros i. split; [|by intros ?%not_elem_of_empty].
    intros Hi. destruct (markers_live w Hw i Hi) as (t & Hin & _).
    rewrite Hnil in Hin. by apply elem_of_nil in Hin.
Qed.

Lemma refs_hold_suspended_calls_only_witness :
  (∃ t, t ∈ transfers uploading_a_b ∧ t_ctrl t = 1%nat ∧ id (t_item t) = "b")
  ∧ (transfers complete_a = [] →
     abortControllers complete_a = ∅ ∧ uploadQueueRef complete_a = ∅).
Proof.
  split.
  - apply (refs_hold_suspended_calls_only two_at_a_time uploading_a_b
             reachable_uploading_a_b).
    reflexivity.
  - apply (refs_hold_suspended_calls_only manual_one_at_a_time complete_a
             reachable_complete_a).
Defined.

(** X2.  A record is never shown uploading without an upload behind it: in
    every reachable provider, each record with status uploading has a
    controller in [abortControllers], and that controller belongs to a
    suspended [uploadFile] call for the record's id.  In particular, when
    no call is suspended, [isUploading] is false. *)
Theorem uploading_record_has_suspended_call opts w :
  reachable opts w →
  (∀ item, item ∈ items w → status item = StUploading →
     ∃ c t, abortControllers w !! id item = Some c
            ∧ t ∈ transfers w ∧ t_ctrl t = c ∧ id (t_item t) = id item)
  ∧ (transfers w = [] → isUploading (items w) = false).
Proof.
  intros [Hw _]%reachable_consistent.
  assert (Hcall : ∀ item, item ∈ items w → status item = StUploading →
            ∃ c t, abortControllers w !! id item = Some c
                   ∧ t ∈ transfers w ∧ t_ctrl t = c
                   ∧ id (t_item t) = id item).
  { intros item Hin Hst.
    destruct (uploading_has_controller w Hw item Hin Hst) as [c Hc].
    destruct (controllers_live w Hw _ c Hc) as (t & Ht).
    by exists c, t. }
  split; [done|].
  intros Hnil. unfold isUploading. apply bool_decide_eq_false.
  intros (item & Hin & Hst)%Exists_exists.
  destruct (Hcall item Hin Hst) as (c & t & _ & Hint & _).
  rewrite Hnil in Hint. by apply elem_of_nil in Hint.
Qed.

Lemma uploading_record_has_suspended_call_witness :
  ∃ c t, abortControllers uploading_a_b !! "b" = Some c
         ∧ t ∈ transfers uploading_a_b ∧ t_ctrl t = c
         ∧ id (t_item t) = "b".
Proof.
  apply (uploading_record_has_suspended_call two_at_a_time uploading_a_b
           reachable_uploading_a_b)
    with (item := mkItem "b" "photo.png" 4096 StUploading 0 None None None
                    "image/png" photo_png).
  - apply list_elem_of_lookup. by exists 1%nat.
  - reflexivity.
Defined.

(** X3.  What [useCompletedUploads] returns can be linked to: in every
    reachable provider, each record it returns is complete and carries the
    [url] and the [key] of a resolver response. *)
Theorem completed_uploads_have_location opts w :
  reachable opts w →
  ∀ item, item ∈ useCompletedUploads (items w) →
    status item = StComplete ∧ is_Some (url item) ∧ is_Some (key item).
Proof.
  intros [Hw _]%reachable_consistent item [Hst Hin]%list_elem_of_filter.
  pose proof (items_ok w Hw) as Hok. rewrite Forall_forall in Hok.
  destruct (Hok item Hin) as (_ & _ & _ & Hloc).
  split; [done|]. by apply Hloc.
Qed.

Lemma completed_uploads_have_location_witness :
  map (λ item, (id item, url item)) (useCompletedUploads (items complete_a))
  = [("a", Some "https://cdn.example/uploads/report.pdf")]
  ∧ Forall (λ item, status item = StComplete
                    ∧ is_Some (url item) ∧ is_Some (key item))
      (useCompletedUploads (items complete_a)).
Proof.
  split; [reflexivity|]. apply Forall_forall.
  apply (completed_uploads_have_location manual_one_at_a_time complete_a
           reachable_complete_a).
Defined.

(** X4.  The metadata of a record is that of its file, whatever has
    happened to the record: in every reachable provider each record's
    [fileName], [size] and [contentType] are the name, size and type of
    its [file]. *)
Theorem record_metadata_is_of_its_file opts w :
  reachable opts w →
  ∀ item, item ∈ items w →
    fileName item = File.name (file item)
    ∧ size item = File.size (file item)
    ∧ contentType item = File.type (file item).
Proof.
  intros [Hw _]%reachable_consistent item Hin.
  pose proof (items_ok w Hw) as Hok. rewrite Forall_forall in Hok.
  destruct (Hok item Hin) as (Hn & Hs & Hc & _). done.
Qed.

Lemma record_metadata_is_of_its_file_witness :
  Forall (λ item, fileName item = File.name (file item)
                  ∧ size item = File.size (file item)
                  ∧ contentType item = File.type (file item))
    (items uploading_a_b)
  ∧ map fileName (items uploading_a_b)
    = ["report.pdf"; "photo.png"; "notes.txt"].
Proof.
  split; [|reflexivity]. apply Forall_forall.
  apply (record_metadata_is_of_its_file two_at_a_time uploading_a_b
           reachable_uploading_a_b).
Defined.

(** * Removing a record *)

Lemma mark_error_absent i m (l : list UploadItem) :
  i ∉ map id l → map (mark_error i m) l = l.
Proof.
  induction l as [|item l IH]; [done|].
  intros [Hne Hnot]%not_elem_of_cons. simpl.
  unfold mark_error at 1. rewrite decide_False by done. by rewrite IH.
Qed.

Lemma filter_mark_error i m (l : list UploadItem) :
  filter (λ item, id item ≠ i) (map (mark_error i m) l)
  = filter (λ item, id item ≠ i) l.
Proof.
  induction l as [|item l IH]; [done|]. simpl map.
  destruct (decide (id item = i)) as [Heq|Hne].
  - rewrite !filter_cons_False; [done | by intros ? | ].
    rewrite mark_error_id. by intros ?.
  - unfold mark_error at 1. rewrite decide_False by done.
    rewrite !filter_cons_True by done. by rewrite IH.
Qed.

Lemma not_elem_of_map_id_filter i (l : list UploadItem) :
  i ∉ map id (filter (λ item, id item ≠ i) l).
Proof.
  intros [item [-> [Hne _]%list_elem_of_filter]]%list_elem_of_fmap.
  by apply Hne.
Qed.

(** In a consistent provider the calls that [cancelUpload(i)] aborts are
    calls for record [i]. *)
Lemma cancelUpload_rejected_id i w t e :
  consistent w → settled w →
  t ∈ transfers (cancelUpload i w) →
  t_phase t = Rejected e →
  id (t_item t) = i ∧ e = ErrorObj "Upload cancelled".
Proof.
  intros Hw Hs Hin Hph. rewrite transfers_cancelUpload in Hin.
  unfold settled in Hs. rewrite Forall_forall in Hs.
  destruct (abortControllers w !! i) as [c|] eqn:Hic.
  - apply list_elem_of_fmap in Hin as [t0 [-> Hin0]].
    split; [|by eapply abort_transfer_rejected; [apply Hs|]].
    destruct (abort_transfer_keeps c t0) as [_ ->].
    destruct (decide (t_ctrl t0 = c)) as [Hc|Hc].
    + destruct (controllers_live w Hw i c Hic) as (t1 & Hin1 & Hc1 & Hid1).
      rewrite <- Hid1.
      by rewrite (NoDup_map_elem_inj t_ctrl (transfers w) t0 t1
                    (ctrl_nodup w Hw) Hin0 Hin1) by congruence.
    + unfold abort_transfer in Hph. rewrite decide_False in Hph by done.
      by destruct (Hs t0 Hin0 e).
  - by destruct (Hs t Hin e).
Qed.

Lemma items_removeItem i w :
  items (removeItem i w) = filter (λ item, id item ≠ i) (items w).
Proof.
  unfold removeItem. cbv zeta. unfold set_items. cbn [items].
  by rewrite items_cancelUpload, filter_mark_error.
Qed.

Lemma timers_uploadFile_catch t e w :
  timers (uploadFile_catch t e w) = timers w.
Proof.
  unfold uploadFile_catch.
  by destruct (decide (message_of e = Some "Upload cancelled")).
Qed.

Lemma next_ctrl_uploadFile_catch t e w :
  next_ctrl (uploadFile_catch t e w) = next_ctrl w.
Proof.
  unfold uploadFile_catch.
  by destruct (decide (message_of e = Some "Upload cancelled")).
Qed.

(** X5.  [removeItem(id)] takes the record out and touches no other: in
    every reachable provider, after the task the store is the store before
    without the records of that id, the others in their order and with
    all their fields; neither callback is invoked and no admission pass is
    scheduled. *)
Theorem removeItem_removes_the_record opts w i :
  reachable opts w →
  let w' := step opts (RemoveItem i) w in
  items w' = filter (λ item, id item ≠ i) (items w)
  ∧ callbacks w' = callbacks w
  ∧ timers w' = timers w.
Proof.
  intros [Hw Hs]%reachable_consistent. cbv zeta. unfold step.
  rewrite <- (items_removeItem i w).
  rewrite run_microtasks_fold.
  apply (foldl_microtask_invariant
           (λ w', items w' = items (removeItem i w)
                  ∧ callbacks w' = callbacks w
                  ∧ timers w' = timers w)).
  - split; [done|]. split; [|unfold removeItem, cancelUpload; simpl;
                             by destruct (abortControllers w !! i)].
    unfold removeItem. simpl. apply callbacks_cancelUpload.
  - intros w' t Hin (Hitems & Hcb & Htm). unfold microtask.
    destruct (t_phase t) as [| |e] eqn:Hph; try done.
    destruct (cancelUpload_rejected_id i w t e Hw Hs Hin Hph) as [Hid ->].
    rewrite items_uploadFile_catch, callbacks_uploadFile_catch, Hid.
    rewrite decide_True, app_nil_r by done.
    split; [|by rewrite timers_uploadFile_catch].
    rewrite Hitems. apply mark_error_absent.
    rewrite items_removeItem. apply not_elem_of_map_id_filter.
Qed.

(** Removing record "a" while its XHR is in flight, with "b" and "c" in
    the store. *)
Lemma removeItem_removes_the_record_witness :
  map (λ item, (id item, status item))
    (items (step two_at_a_time (RemoveItem "a") uploading_a_b))
  = [("b", StUploading); ("c", StQueued)]
  ∧ callbacks (step two_at_a_time (RemoveItem "a") uploading_a_b) = [].
Proof.
  destruct (removeItem_removes_the_record two_at_a_time uploading_a_b "a"
              reachable_uploading_a_b) as (Hitems & Hcb & _).
  split; [by rewrite Hitems | exact Hcb].
Defined.

(** * What the tasks never do *)

Lemma run_microtasks_invariant (P : Provider → Prop) w :
  P w →
  (∀ w' t e, P w' → P (uploadFile_catch t e w')) →
  P (run_microtasks w).
Proof.
  intros HP Hstep. rewrite run_microtasks_fold.
  apply foldl_microtask_invariant; [done|].
  intros w' t _ HP'. unfold microtask. destruct (t_phase t); auto.
Qed.

Lemma processQueue_invariant (P : Provider → Prop) opts captured w :
  P w →
  (∀ w' item, P w' →
     P (uploadFile item (set_uploadQueueRef (λ s, {[id item]} ∪ s) w'))) →
  P (processQueue opts captured w).
Proof.
  intros HP Hstep. unfold processQueue. cbv zeta.
  generalize (slice0
                (filter (λ item, status item = StQueued
                                 ∧ id item ∉ uploadQueueRef w) captured)
                (maxConcurrent opts
                 - Z.of_nat (length (filter (λ item, status item = StUploading)
                                       captured)))).
  intros l. revert w HP. induction l as [|item l IH]; intros w HP; [done|].
  simpl. by apply IH, Hstep.
Qed.

Lemma map_id_mark_error i m (l : list UploadItem) :
  map id (map (mark_error i m) l) = map id l.
Proof.
  induction l as [|item l IH]; [done|].
  simpl. by rewrite IH, mark_error_id.
Qed.

Lemma map_id_updateItem i u w :
  map id (items (updateItem i u w)) = map id (items w).
Proof. apply map_id_started. Qed.

Lemma map_id_uploadFile_catch t e w :
  map id (items (uploadFile_catch t e w)) = map id (items w).
Proof. rewrite items_uploadFile_catch. apply map_id_mark_error. Qed.

Lemma map_id_run_microtasks w :
  map id (items (run_microtasks w)) = map id (items w).
Proof.
  apply (run_microtasks_invariant
           (λ w', map id (items w') = map id (items w))); [done|].
  intros w' t e IH. by rewrite map_id_uploadFile_catch.
Qed.

Lemma map_id_processQueue opts captured w :
  map id (items (processQueue opts captured w)) = map id (items w).
Proof.
  apply (processQueue_invariant
           (λ w', map id (items w') = map id (items w))); [done|].
  intros w' item IH. rewrite items_uploadFile. simpl.
  by rewrite map_id_started.
Qed.

Lemma map_id_on_transfer_event c tev w :
  map id (items (on_transfer_event c tev w)) = map id (items w).
Proof.
  unfold on_transfer_event.
  destruct (list_find (λ t, t_ctrl t = c) (transfers w)) as [[k t]|]; [|done].
  destruct (t_phase t) as [|presigned|e], tev as [r|[] percent|xhr_status|];
    try done.
  - destruct (getPresignedUrl r); [apply map_id_uploadFile_catch | done].
  - apply map_id_updateItem.
  - case_decide; [|apply map_id_uploadFile_catch].
    unfold uploadFile_complete. cbv zeta. simpl. apply map_id_started.
  - apply map_id_uploadFile_catch.
Qed.

Lemma map_id_new_items files : map id (map new_item files) = map fst files.
Proof. induction files as [|f files IH]; [done|]. simpl. by rewrite IH. Qed.

Lemma items_addFiles opts captured files w :
  items (addFiles opts captured files w) = items w ++ map new_item files.
Proof. unfold addFiles. cbv zeta. by destruct (autoUpload opts). Qed.

(** X6.  Records come and go only when the application says so.  For
    every provider and every task, the ids in the store afterwards are
    those before, in the same order, except that [addFiles] (also through
    [uploadFiles(files)]) appends the new ids, [removeItem] takes out the
    given id and [clearCompleted] the ids of the complete and error
    records.  No render, timer, cancellation, retry, progress, success or
    failure of a transfer creates, drops or reorders a record. *)
Theorem store_changes_only_on_request opts ev w :
  map id (items (step opts ev w))
  = match ev with
    | AddFiles files | UploadFiles (Some files) =>
        map id (items w) ++ map fst files
    | RemoveItem i => map id (filter (λ item, id item ≠ i) (items w))
    | ClearCompleted => map id (filter active (items w))
    | Render | UploadFiles None | CancelUpload _ | RetryUpload _
    | TimerFires | TransferEv _ _ => map id (items w)
    end.
Proof.
  unfold step. rewrite map_id_run_microtasks.
  destruct ev as [|files|[files|]|i|i|i| | |c tev].
  - done.
  - by rewrite items_addFiles, map_app, map_id_new_items.
  - unfold uploadFiles. cbv zeta.
    by rewrite map_id_processQueue, items_addFiles, map_app, map_id_new_items.
  - unfold uploadFiles. cbv zeta. by rewrite map_id_processQueue.
  - by rewrite items_cancelUpload, map_id_mark_error.
  - by rewrite items_removeItem.
  - rewrite retryUpload_unfold. simpl. apply map_id_started.
  - unfold clearCompleted. simpl. f_equal.
    apply list_filter_iff, kept_iff_active.
  - destruct (timers w); [done|]. by rewrite map_id_processQueue.
  - apply map_id_on_transfer_event.
Qed.

(** ** Uploads start in [processQueue] only *)

Lemma ctrls_uploadFile_catch t e w :
  map t_ctrl (transfers (uploadFile_catch t e w))
  `sublist_of` map t_ctrl (transfers w).
Proof.
  rewrite transfers_uploadFile_catch.
  apply (fmap_sublist t_ctrl), sublist_filter.
Qed.

Lemma ctrls_map_keep (f : Transfer → Transfer) (l : list Transfer) :
  (∀ t, t_ctrl (f t) = t_ctrl t) → map t_ctrl (map f l) = map t_ctrl l.
Proof.
  intros Hf. induction l as [|t l IH]; [done|]. simpl. by rewrite IH, Hf.
Qed.

Lemma quiet_refl w : quiet w w.
Proof. by split_and!. Qed.

Lemma quiet_uploadFile_catch w w' t e :
  quiet w w' → quiet w (uploadFile_catch t e w').
Proof.
  intros (Hn & Hsub & Htm). split_and!.
  - by rewrite next_ctrl_uploadFile_catch.
  - etrans; [apply ctrls_uploadFile_catch | done].
  - by rewrite timers_uploadFile_catch.
Qed.

Lemma quiet_run_microtasks w w' : quiet w w' → quiet w (run_microtasks w').
Proof.
  intros Hq. apply (run_microtasks_invariant (quiet w)); [done|].
  intros w'' t e. apply quiet_uploadFile_catch.
Qed.

Lemma quiet_cancelUpload i w : quiet w (cancelUpload i w).
Proof.
  unfold quiet. rewrite transfers_cancelUpload.
  unfold cancelUpload. cbv zeta.
  destruct (abortControllers w !! i) as [c|]; simpl; [|done].
  rewrite ctrls_map_keep; [done|]. intros t. apply abort_transfer_keeps.
Qed.

Lemma quiet_on_transfer_event c tev w : quiet w (on_transfer_event c tev w).
Proof.
  unfold on_transfer_event.
  destruct (list_find (λ t, t_ctrl t = c) (transfers w)) as [[k t]|];
    [|apply quiet_refl].
  destruct (t_phase t) as [|presigned|e], tev as [r|[] percent|xhr_status|];
    try apply quiet_refl.
  - destruct (getPresignedUrl r);
      [apply quiet_uploadFile_catch, quiet_refl|].
    unfold quiet. simpl. rewrite ctrls_map_keep; [done|].
    intros t'. case_decide as Hc; [|done]. simpl. by rewrite Hc.
  - by unfold quiet.
  - case_decide; [|apply quiet_uploadFile_catch, quiet_refl].
    unfold quiet, uploadFile_complete. simpl. split_and!; try done.
    apply (fmap_sublist t_ctrl), sublist_filter.
  - apply quiet_uploadFile_catch, quiet_refl.
Qed.

(** X7.  The queue does not advance by itself.  A task that is not
    [addFiles], [uploadFiles], [retryUpload] or a fired timer (so: a
    render, a cancellation, a removal, [clearCompleted], and every event
    of a transfer, its success and its failure included) creates no
    controller, suspends no new [uploadFile] call and schedules no
    admission pass.  A slot freed by a finished upload is taken only when
    the application triggers a pass. *)
Theorem finished_transfer_starts_nothing opts ev w :
  drives_queue ev = false →
  next_ctrl (step opts ev w) = next_ctrl w
  ∧ map t_ctrl (transfers (step opts ev w))
    `sublist_of` map t_ctrl (transfers w)
  ∧ timers (step opts ev w) = timers w.
Proof.
  intros Hev. change (quiet w (step opts ev w)).
  unfold step. apply quiet_run_microtasks.
  destruct ev as [|files|files|i|i|i| | |c tev]; try done.
  - apply quiet_cancelUpload.
  - destruct (quiet_cancelUpload i w) as (Hn & Hsub & Htm).
    unfold removeItem. by split_and!.
  - apply quiet_on_transfer_event.
Qed.

(** Upload "a" succeeds while "b" is uploading and "c" is queued, two
    uploads allowed: "c" stays queued, nothing is scheduled. *)
Lemma finished_transfer_starts_nothing_witness :
  let w' := step two_at_a_time (TransferEv 0 (XhrLoad 200)) uploading_a_b in
  map (λ item, (id item, status item)) (items w')
  = [("a", StComplete); ("b", StUploading); ("c", StQueued)]
  ∧ next_ctrl w' = next_ctrl uploading_a_b
  ∧ timers w' = timers uploading_a_b.
Proof.
  destruct (finished_transfer_starts_nothing two_at_a_time
              (TransferEv 0 (XhrLoad 200)) uploading_a_b eq_refl)
    as (Hn & _ & Htm).
  cbv zeta. split; [reflexivity|]. split; [exact Hn | exact Htm].
Defined.

(** ** Callbacks *)

Lemma callbacks_processQueue opts captured w :
  callbacks (processQueue opts captured w) = callbacks w.
Proof.
  by apply (processQueue_invariant (λ w', callbacks w' = callbacks w)).
Qed.

Lemma callbacks_addFiles opts captured files w :
  callbacks (addFiles opts captured files w) = callbacks w.
Proof. unfold addFiles. cbv zeta. by destruct (autoUpload opts). Qed.

Lemma settled_addFiles opts captured files w :
  settled w → settled (addFiles opts captured files w).
Proof. unfold addFiles. cbv zeta. by destruct (autoUpload opts). Qed.

Lemma only_aborts_removeItem i w :
  settled w → only_aborts_pending (removeItem i w).
Proof. intros Hs. by apply (cancelUpload_only_aborts i w). Qed.

(** X8.  The callbacks report transfers, nothing else.  Between two tasks,
    any task that is not an event of a transfer leaves the list of
    callback invocations as it is: [onError] and [onUploadComplete] are
    not invoked by adding, starting, cancelling, removing, retrying or
    clearing, nor by a render or a timer. *)
Theorem callbacks_only_from_transfers opts ev w :
  settled w →
  is_transfer_event ev = false →
  callbacks (step opts ev w) = callbacks w.
Proof.
  intros Hs Hev. unfold step.
  destruct ev as [|files|files|i|i|i| | |c tev]; try done.
  - by rewrite run_microtasks_settled.
  - rewrite run_microtasks_settled by by apply settled_addFiles.
    apply callbacks_addFiles.
  - rewrite run_microtasks_settled.
    + unfold uploadFiles. cbv zeta. rewrite callbacks_processQueue.
      destruct files; [apply callbacks_addFiles | done].
    + apply settled_processQueue.
      destruct files; [by apply settled_addFiles | done].
  - rewrite run_microtasks_aborts_callbacks
      by by apply cancelUpload_only_aborts.
    apply callbacks_cancelUpload.
  - rewrite run_microtasks_aborts_callbacks
      by by apply only_aborts_removeItem.
    unfold removeItem. simpl. apply callbacks_cancelUpload.
  - by rewrite run_microtasks_settled.
  - by rewrite run_microtasks_settled.
  - destruct (timers w) as [|captured rest].
    + by rewrite run_microtasks_settled.
    + rewrite run_microtasks_settled by by apply settled_processQueue.
      by rewrite callbacks_processQueue.
Qed.

(** After upload "a" has completed (one invocation of
    [onUploadComplete]), the record is cancelled, retried and removed. *)
Lemma callbacks_only_from_transfers_witness :
  length (callbacks complete_a) = 1%nat
  ∧ callbacks (step manual_one_at_a_time (CancelUpload "a") complete_a)
    = callbacks complete_a
  ∧ callbacks (step manual_one_at_a_time (RemoveItem "a") sending_a)
    = callbacks sending_a.
Proof.
  split; [reflexivity|]. split.
  - apply (callbacks_only_from_transfers manual_one_at_a_time
             (CancelUpload "a") complete_a complete_a_settled eq_refl).
  - apply (callbacks_only_from_transfers manual_one_at_a_time
             (RemoveItem "a") sending_a sending_a_settled eq_refl).
Defined.

(** * A successful upload *)





(** * The admission pass at its edges *)

Lemma started_processQueue opts captured w :
  started w (processQueue opts captured w)
  = slice0 (candidates captured w)
      (maxConcurrent opts - Z.of_nat (uploadingCount captured)).
Proof.
  unfold processQueue, candidates, uploadingCount. cbv zeta.
  set (l := slice0 _ _).
  destruct (foldl_start_transfers l w) as [Htr _].
  unfold started. change map with (@fmap list _). rewrite fmap_drop.
  change (@fmap list _) with map. cbv zeta in Htr. rewrite Htr.
  rewrite <- (length_map t_item). by rewrite drop_app_length.
Qed.

(** X10.  The pass has no guard for a limit that is already exceeded.
    When the captured records show more uploads than [maxConcurrent]
    (the limit was lowered, or two passes ran on one render), the number
    of free slots is negative and [slice(0, slots)] counts it from the
    end: the pass starts an upload for every queued record without a
    marker except the last [uploadingCount - maxConcurrent] of them.  At
    the limit exactly it starts none. *)
Theorem processQueue_over_the_limit opts captured w :
  maxConcurrent opts ≤ Z.of_nat (uploadingCount captured) →
  let excess :=
    Z.to_nat (Z.of_nat (uploadingCount captured) - maxConcurrent opts) in
  started w (processQueue opts captured w)
  = if decide (excess = 0%nat) then []
    else take (length (candidates captured w) - excess)
           (candidates captured w).
Proof.
  intros Hle. cbv zeta. rewrite started_processQueue. unfold slice0.
  destruct (decide (Z.to_nat (Z.of_nat (uploadingCount captured)
                              - maxConcurrent opts) = 0%nat)) as [Hex|Hex].
  - rewrite decide_False by lia.
    replace (maxConcurrent opts - Z.of_nat (uploadingCount captured)) with 0
      by lia.
    done.
  - rewrite decide_True by lia. f_equal. lia.
Qed.

(** One upload allowed, two under way, two queued: the pass starts the
    first of the queued records. *)
Lemma processQueue_over_the_limit_witness :
  map id (started initial
            (processQueue one_at_a_time
               [record "a" StUploading 10; record "b" StUploading 0;
                record "c" StQueued 0; record "d" StQueued 0] initial))
  = ["c"].
Proof.
  assert (Hle : maxConcurrent one_at_a_time
                ≤ Z.of_nat (uploadingCount
                              [record "a" StUploading 10;
                               record "b" StUploading 0;
                               record "c" StQueued 0;
                               record "d" StQueued 0])) by (vm_compute; discriminate).
  rewrite (processQueue_over_the_limit one_at_a_time _ initial Hle).
  reflexivity.
Defined.

(** ** The pass that [retryUpload] schedules *)

Lemma processQueue_untouched_unless_queued opts captured w n item :
  items w !! n = Some item →
  (∀ item', item' ∈ captured → id item' = id item →
     status item' ≠ StQueued) →
  items (processQueue opts captured w) !! n = Some item.
Proof.
  intros Hn Hnot. unfold processQueue. cbv zeta.
  apply foldl_start_untouched; [done|].
  intros [item' [Hid Hin]]%list_elem_of_fmap.
  apply slice0_subseteq in Hin.
  apply list_elem_of_filter in Hin as [[Hst _] Hcap].
  by apply (Hnot item' Hcap).
Qed.

(** X11.  [retryUpload] re-queues, it does not restart.  The pass it
    schedules runs the [processQueue] of the render [retryUpload] was
    called from.  If that render shows no queued record with the id (the
    record was in error, as the retry button requires), then after the
    retry, a render and the pass, the record is queued with progress 0
    and no error, no upload has been started for it, and no further pass
    is scheduled. *)
Theorem retryUpload_pass_skips_the_record opts w i :
  settled w →
  timers w = [] →
  (∀ item, item ∈ rendered w → id item = i → status item ≠ StQueued) →
  let w' := run opts [RetryUpload i; Render; TimerFires] w in
  (∀ n item, items w !! n = Some item → id item = i →
     items w' !! n = Some (requeued item))
  ∧ Forall (λ item, id item ≠ i) (started w w')
  ∧ timers w' = [].
Proof.
  intros Hs Htimers Hshown. cbv zeta. unfold run. simpl foldl.
  rewrite (step_settled_op opts (RetryUpload i) w Hs).
  set (w1 := retryUpload (rendered w) i w).
  assert (Hs1 : settled w1) by done.
  rewrite (step_settled_op opts Render w1 Hs1).
  set (w2 := set_rendered (items w1) w1).
  unfold step. replace (timers w2) with [rendered w]
    by (unfold w2, w1, retryUpload; simpl; by rewrite Htimers).
  set (w3 := set_timers (λ _, []) w2).
  assert (Hs3 : settled w3) by done.
  rewrite run_microtasks_settled by by apply settled_processQueue.
  split_and!.
  - intros n item Hn Hid.
    apply processQueue_untouched_unless_queued.
    + unfold w3, w2, w1, retryUpload. simpl.
      rewrite list_lookup_fmap, Hn. simpl. by rewrite decide_True.
    + intros item' Hin' Hid'. apply Hshown; [done|].
      simpl in Hid'. congruence.
  - change (started w (processQueue opts (rendered w) w3))
      with (started w3 (processQueue opts (rendered w) w3)).
    destruct (processQueue_started opts (rendered w) w3) as [Hall _].
    eapply Forall_impl; [exact Hall|].
    intros item (Hin & Hst & _) Hid. simpl in Hst. by apply (Hshown item).
  - by apply (processQueue_invariant (λ w', timers w' = [])).
Qed.

(** Upload "a" has failed; the user presses retry. *)
Lemma retryUpload_pass_skips_the_record_witness :
  let w' := run manual_one_at_a_time [RetryUpload "a"; Render; TimerFires]
              failed_a in
  map (λ item, (id item, status item, error item)) (items failed_a)
  = [("a", StError, Some "quota exceeded")]
  ∧ map (λ item, (id item, status item, error item)) (items w')
    = [("a", StQueued, None)]
  ∧ transfers w' = []
  ∧ timers w' = [].
Proof.
  assert (Hshown : ∀ item, item ∈ rendered failed_a → id item = "a" →
            status item ≠ StQueued).
  { intros item Hin _. vm_compute in Hin.
    apply list_elem_of_singleton in Hin. by subst item. }
  destruct (retryUpload_pass_skips_the_record manual_one_at_a_time failed_a
              "a" (run_settled _ _ _ resolving_a_settled) eq_refl Hshown)
    as (_ & _ & Htm).
  cbv zeta. split; [reflexivity|]. split; [reflexivity|].
  split; [reflexivity | exact Htm].
Defined.

(** * Operations on an id the provider does not know *)

Lemma set_items_id f w : f (items w) = items w → set_items f w = w.
Proof. intros Hf. destruct w. unfold set_items. simpl in *. by rewrite Hf. Qed.

Lemma filter_id_absent i (l : list UploadItem) :
  i ∉ map id l → filter (λ item, id item ≠ i) l = l.
Proof.
  induction l as [|item l IH]; [done|].
  intros [Hne Hnot]%not_elem_of_cons.
  rewrite filter_cons_True by done. by rewrite IH.
Qed.

(** X12.  An id that is neither in the store nor in [abortControllers] is
    ignored: [cancelUpload] and [removeItem] leave the whole provider as it
    is (nothing is aborted, no record changes), and [retryUpload] changes
    no record and no upload; it only schedules its admission pass. *)
Theorem unknown_id_is_ignored opts w i :
  settled w →
  i ∉ map id (items w) →
  abortControllers w !! i = None →
  step opts (CancelUpload i) w = w
  ∧ step opts (RemoveItem i) w = w
  ∧ items (step opts (RetryUpload i) w) = items w
  ∧ transfers (step opts (RetryUpload i) w) = transfers w.
Proof.
  intros Hs Hnot Hnone.
  assert (Hcancel : cancelUpload i w = w).
  { unfold cancelUpload. cbv zeta. rewrite Hnone.
    apply set_items_id. by apply (mark_error_absent i "Cancelled"). }
  split_and!.
  - unfold step. rewrite Hcancel. by apply run_microtasks_settled.
  - unfold step, removeItem. cbv zeta. rewrite Hcancel.
    rewrite set_items_id by by apply filter_id_absent.
    by apply run_microtasks_settled.
  - rewrite (step_settled_op opts (RetryUpload i) w Hs).
    unfold retryUpload. simpl.
    by apply (uploadingCount_start_absent i).
  - by rewrite (step_settled_op opts (RetryUpload i) w Hs).
Qed.

Lemma unknown_id_is_ignored_witness :
  step two_at_a_time (CancelUpload "zz") uploading_a_b = uploading_a_b
  ∧ step two_at_a_time (RemoveItem "zz") uploading_a_b = uploading_a_b.
Proof.
  assert (Hnot : "zz" ∉ map id (items uploading_a_b)).
  { vm_compute. intros Hin. repeat (apply elem_of_cons in Hin as [Hin|Hin];
                                     [discriminate|]).
    by apply elem_of_nil in Hin. }
  destruct (unknown_id_is_ignored two_at_a_time uploading_a_b "zz"
              (run_settled _ _ _ initial_settled) Hnot eq_refl)
    as (Hc & Hr & _).
  split; [exact Hc | exact Hr].
Defined.

(** * Upload statistics *)

Lemma count_status_cons st item l :
  count_status st (item :: l)
  = (if decide (status item = st) then 1 else 0) + count_status st l.
Proof.
  unfold count_status. rewrite filter_cons.
  case_decide; simpl length; lia.
Qed.

Lemma stats_add_counts stats item :
  let stats' := stats_add stats item in
  Stats.total stats' = Stats.total stats
  ∧ Stats.queued stats'
    = Stats.queued stats + (if decide (status item = StQueued) then 1 else 0)
  ∧ Stats.uploading stats'
    = Stats.uploading stats
      + (if decide (status item = StUploading) then 1 else 0)
  ∧ Stats.complete stats'
    = Stats.complete stats
      + (if decide (status item = StComplete) then 1 else 0)
  ∧ Stats.error stats'
    = Stats.error stats + (if decide (status item = StError) then 1 else 0)
  ∧ Stats.totalBytes stats' = Stats.totalBytes stats + size item.
Proof.
  cbv zeta. unfold stats_add. destruct (status item); simpl; lia.
Qed.

Lemma stats_fold_counts l stats :
  let stats' := foldl stats_add stats l in
  Stats.total stats' = Stats.total stats
  ∧ Stats.queued stats' = Stats.queued stats + count_status StQueued l
  ∧ Stats.uploading stats'
    = Stats.uploading stats + count_status StUploading l
  ∧ Stats.complete stats' = Stats.complete stats + count_status StComplete l
  ∧ Stats.error stats' = Stats.error stats + count_status StError l
  ∧ Stats.totalBytes stats' = Stats.totalBytes stats + total_size l.
Proof.
  revert stats. induction l as [|item l IH]; intros stats; cbv zeta.
  - unfold count_status, total_size. simpl. lia.
  - simpl foldl.
    destruct (IH (stats_add stats item)) as (H1 & H2 & H3 & H4 & H5 & H6).
    destruct (stats_add_counts stats item) as (G1 & G2 & G3 & G4 & G5 & G6).
    rewrite !count_status_cons. simpl total_size.
    fold (total_size l). lia.
Qed.

Lemma count_status_partition l :
  count_status StQueued l + count_status StUploading l
  + count_status StComplete l + count_status StError l
  = Z.of_nat (length l).
Proof.
  induction l as [|item l IH]; [done|].
  rewrite !count_status_cons. simpl length.
  destruct (status item); simpl; lia.
Qed.

(** X13.  The counters of [useUploadStats] add up.  For every list of
    records, [total] is the number of records, each of [queued],
    [uploading], [complete] and [error] is the number of records with that
    status, so the four sum to [total]; [totalBytes] is the sum of the
    sizes; and [isUploading] is true exactly when [uploading] is
    positive. *)
Theorem useUploadStats_counts (l : list UploadItem) :
  let stats := useUploadStats l in
  Stats.total stats = Z.of_nat (length l)
  ∧ Stats.queued stats = count_status StQueued l
  ∧ Stats.uploading stats = Z.of_nat (uploadingCount l)
  ∧ Stats.complete stats = Z.of_nat (length (useCompletedUploads l))
  ∧ Stats.error stats = count_status StError l
  ∧ Stats.queued stats + Stats.uploading stats + Stats.complete stats
    + Stats.error stats = Stats.total stats
  ∧ Stats.totalBytes stats = total_size l
  ∧ (isUploading l = true ↔ 0 < Stats.uploading stats).
Proof.
  cbv zeta. unfold useUploadStats.
  destruct (stats_fold_counts l
              (Stats.mk (Z.of_nat (length l)) 0 0 0 0 0 0%Q))
    as (H1 & H2 & H3 & H4 & H5 & H6).
  cbv zeta in *. simpl in H1, H2, H3, H4, H5, H6.
  pose proof (count_status_partition l) as Hsum.
  split_and!; try done; try lia.
  rewrite H3. unfold isUploading, count_status.
  rewrite bool_decide_eq_true, Exists_exists.
  split.
  - intros (item & Hin & Hst).
    assert (item ∈ filter (λ item, status item = StUploading) l)
      by by apply list_elem_of_filter.
    destruct (filter (λ item, status item = StUploading) l);
      [by apply elem_of_nil in H | simpl; lia].
  - intros Hpos.
    destruct (filter (λ item, status item = StUploading) l) as [|item rest]
      eqn:Hf; [simpl in Hpos; lia|].
    assert (Hin : item ∈ filter (λ item, status item = StUploading) l)
      by (rewrite Hf; left).
    apply list_elem_of_filter in Hin as [Hst Hin]. eauto.
Qed.

(** ** Bytes *)






(** * File selection *)

(** ** Strings *)

Lemma chars_app (a b : string) : chars (a +:+ b) = chars a ++ chars b.
Proof. induction a as [|c a IH]; [done|]. simpl. by rewrite <- IH. Qed.

Lemma chars_of_list (l : list ascii) :
  chars (String.string_of_list_ascii l) = l.
Proof. apply String.list_ascii_of_string_of_list_ascii. Qed.

Lemma take_all_but_last {A} (l : list A) (a b : A) :
  take (length (l ++ [a; b]) - 1) (l ++ [a; b]) = l ++ [a].
Proof.
  replace (l ++ [a; b]) with ((l ++ [a]) ++ [b]) by by rewrite <- app_assoc.
  rewrite (length_app (l ++ [a])). simpl length at 2.
  replace (length (l ++ [a]) + 1 - 1)%nat with (length (l ++ [a])) by lia.
  apply take_app_length.
Qed.

Lemma startsWith_chars (s p q : string) :
  chars p = chars q → startsWith s p = startsWith s q.
Proof. unfold startsWith. by intros ->. Qed.

(** ** Patterns *)

Section Patterns.
Variable toLowerCase : string → string.
Variable trim : string → string.

Lemma matches_any_exists file (patterns : list string) :
  matches_any toLowerCase file patterns = true
  ↔ ∃ pattern, pattern ∈ patterns
               ∧ pattern_matches toLowerCase file pattern = true.
Proof.
  induction patterns as [|p patterns IH]; simpl.
  - split; [done|]. intros (p & Hin & _). by apply elem_of_nil in Hin.
  - destruct (pattern_matches toLowerCase file p) eqn:Hp.
    + split; [|done]. intros _. exists p. split; [left | done].
    + rewrite IH. split.
      * intros (q & Hin & Hq). exists q. split; [by right | done].
      * intros (q & [-> | Hin]%elem_of_cons & Hq); [congruence|].
        by exists q.
Qed.

(** X15.  A file is accepted when some pattern accepts it.  With an array
    of patterns, [fileMatchesAccept] is true exactly when at least one
    pattern of the array matches the file, so neither the order of the
    patterns nor repetitions matter and adding a pattern never rejects a
    file that was accepted.  An absent [accept] and the empty string
    accept every file; the empty array accepts none. *)
Theorem fileMatchesAccept_some_pattern file (patterns more : list string) :
  (fileMatchesAccept toLowerCase trim file (AcceptArray patterns) = true
   ↔ ∃ pattern, pattern ∈ patterns
                ∧ pattern_matches toLowerCase file pattern = true)
  ∧ (∀ patterns', patterns ≡ₚ patterns' →
       fileMatchesAccept toLowerCase trim file (AcceptArray patterns')
       = fileMatchesAccept toLowerCase trim file (AcceptArray patterns))
  ∧ (fileMatchesAccept toLowerCase trim file (AcceptArray patterns) = true →
     fileMatchesAccept toLowerCase trim file (AcceptArray (patterns ++ more))
     = true)
  ∧ fileMatchesAccept toLowerCase trim file AcceptAbsent = true
  ∧ fileMatchesAccept toLowerCase trim file (AcceptString "") = true
  ∧ fileMatchesAccept toLowerCase trim file (AcceptArray []) = false.
Proof.
  assert (Harr : ∀ l, fileMatchesAccept toLowerCase trim file (AcceptArray l)
                      = matches_any toLowerCase file l) by done.
  split_and!; try done.
  - rewrite Harr. apply matches_any_exists.
  - intros patterns' Hperm. rewrite !Harr.
    apply eq_true_iff_eq. rewrite !matches_any_exists.
    split; intros (p & Hin & Hp); exists p; split; try done.
    + by rewrite Hperm.
    + by rewrite <- Hperm.
  - rewrite !Harr, !matches_any_exists.
    intros (p & Hin & Hp). exists p. split; [|done].
    apply elem_of_app. by left.
Qed.

(** X16.  What the MIME patterns match.  A pattern [base/*] whose base
    does not begin with a dot matches exactly the files whose type begins
    with [base/]; so the bare type [base] is not matched, and the pattern
    [*/*] matches only a type that itself begins with [*/].  A pattern
    that neither begins with a dot nor contains a slash, such as [*] or
    [jpg], matches no file. *)
Theorem mime_pattern_matches file (base pattern : string) :
  startsWith base "." = false →
  startsWith pattern "." = false →
  includes_char pattern "/" = false →
  pattern_matches toLowerCase file (base +:+ "/*")
  = startsWith (File.type file) (base +:+ "/")
  ∧ pattern_matches toLowerCase file "*/*" = startsWith (File.type file) "*/"
  ∧ pattern_matches toLowerCase file pattern = false.
Proof.
  intros Hbase Hdot Hslash. split_and!.
  - unfold pattern_matches.
    assert (Hnodot : startsWith (base +:+ "/*") "." = false).
    { unfold startsWith in *. apply bool_decide_eq_false.
      apply bool_decide_eq_false in Hbase. rewrite chars_app.
      intros [k Hk]. apply Hbase.
      destruct (chars base) as [|c rest]; [simpl in Hk; discriminate Hk|].
      simpl in Hk. injection Hk as Hc _. exists rest. simpl. by rewrite Hc. }
    rewrite Hnodot.
    assert (Hinc : includes_char (base +:+ "/*") "/" = true).
    { unfold includes_char. apply bool_decide_eq_true. rewrite chars_app.
      apply elem_of_app. right. left. }
    rewrite Hinc.
    assert (Hend : endsWith (base +:+ "/*") "/*" = true).
    { unfold endsWith. apply bool_decide_eq_true. rewrite chars_app.
      by apply suffix_app_r. }
    rewrite Hend. cbv zeta. apply startsWith_chars.
    unfold slice_0_minus1. rewrite chars_of_list, !chars_app.
    apply (take_all_but_last (chars base)).
  - reflexivity.
  - unfold pattern_matches. by rewrite Hdot, Hslash.
Qed.

End Patterns.

Lemma mime_pattern_matches_witness :
  pattern_matches lower_ascii photo_JPG "image/*" = true
  ∧ pattern_matches lower_ascii (File.mk "x" "image" 1) "image/*" = false
  ∧ pattern_matches lower_ascii photo_JPG "*/*" = false
  ∧ pattern_matches lower_ascii photo_JPG "jpg" = false.
Proof.
  destruct (mime_pattern_matches lower_ascii photo_JPG "image" "jpg"
              eq_refl eq_refl eq_refl) as (H1 & H2 & H3).
  destruct (mime_pattern_matches lower_ascii (File.mk "x" "image" 1) "image" "jpg"
              eq_refl eq_refl eq_refl) as (G1 & _).
  split_and!.
  - etrans; [exact H1 | reflexivity].
  - etrans; [exact G1 | reflexivity].
  - etrans; [exact H2 | reflexivity].
  - exact H3.
Defined.

(** ** [filterFiles] *)

Section Filter.
Variable toLowerCase : string → string.
Variable trim : string → string.
Variable formatBytes : Z → string.

Lemma filterFiles_step_case options valid rejected file :
  filterFiles_step toLowerCase trim formatBytes options (valid, rejected) file
  = if passes toLowerCase trim options file
    then (valid ++ [file], rejected)
    else (valid,
          rejected ++ [(file, rejection_reason formatBytes options file)]).
Proof.
  unfold filterFiles_step, passes, rejection_reason.
  destruct (maxSize_limit options) as [m|].
  - destruct (decide (File.size file > m)) as [Hgt|Hle].
    + rewrite bool_decide_eq_false_2 by lia. done.
    + rewrite bool_decide_eq_true_2 by lia. simpl.
      destruct (accept_falsy (accept options)); [done|]. simpl.
      by destruct (fileMatchesAccept toLowerCase trim file (accept options)).
  - simpl. destruct (accept_falsy (accept options)); [done|]. simpl.
    by destruct (fileMatchesAccept toLowerCase trim file (accept options)).
Qed.

Lemma filterFiles_fold options files valid rejected :
  foldl (filterFiles_step toLowerCase trim formatBytes options)
    (valid, rejected) files
  = (valid ++ filter (λ file, passes toLowerCase trim options file) files,
     rejected
     ++ map (λ file, (file, rejection_reason formatBytes options file))
          (filter (λ file, ¬ passes toLowerCase trim options file) files)).
Proof.
  revert valid rejected.
  induction files as [|file files IH]; intros valid rejected.
  - simpl. by rewrite !app_nil_r.
  - cbn [foldl]. rewrite filterFiles_step_case.
    destruct (passes toLowerCase trim options file) eqn:Hp.
    + rewrite IH. rewrite filter_cons_True by (rewrite Hp; exact I).
      rewrite filter_cons_False by (rewrite Hp; intros Hn; by apply Hn).
      by rewrite <- app_assoc.
    + rewrite IH. rewrite filter_cons_False by (rewrite Hp; intros []).
      rewrite filter_cons_True by (rewrite Hp; intros []).
      simpl. by rewrite <- app_assoc.
Qed.

(** X17.  [filterFiles] sorts every file into one of its two arrays.  The
    valid files are the files that are within the size limit (when one is
    set) and match [accept] (when one is set), in their original order;
    the rejected files are all the others, in their original order, each
    with its reason: the size reason when the file is over the limit,
    whatever its type, and the type reason otherwise.  Together the two
    arrays hold every file of the input exactly once. *)
Theorem filterFiles_partitions files options :
  let valid := (filterFiles toLowerCase trim formatBytes files options).1 in
  let rejected := (filterFiles toLowerCase trim formatBytes files options).2 in
  valid = filter (λ file, passes toLowerCase trim options file) files
  ∧ rejected
    = map (λ file, (file, rejection_reason formatBytes options file))
        (filter (λ file, ¬ passes toLowerCase trim options file) files)
  ∧ valid ++ map fst rejected ≡ₚ files
  ∧ (length valid + length rejected = length files)%nat
  ∧ Forall (λ file,
              (∀ m, maxSize_limit options = Some m → File.size file ≤ m)
              ∧ (accept_falsy (accept options) = false →
                 fileMatchesAccept toLowerCase trim file (accept options)
                 = true)) valid.
Proof.
  cbv zeta. unfold filterFiles. rewrite filterFiles_fold. simpl.
  assert (Hperm : filter (λ file, passes toLowerCase trim options file) files
                  ++ filter (λ file, ¬ passes toLowerCase trim options file) files
                  ≡ₚ files) by apply filter_app_complement.
  split_and!; try done.
  - rewrite map_map. simpl. by rewrite map_id.
  - rewrite length_map, <- length_app. by rewrite Hperm.
  - apply Forall_forall. intros file [Hp _]%list_elem_of_filter.
    unfold passes in Hp. apply andb_prop_elim in Hp as [Hsize Htype].
    split.
    + intros m Hm. rewrite Hm in Hsize. by apply bool_decide_unpack in Hsize.
    + intros Hacc. rewrite Hacc in Htype. simpl in Htype.
      by apply Is_true_eq_true.
Qed.

Lemma passes_no_options options file :
  maxSize_limit options = None →
  accept_falsy (accept options) = true →
  passes toLowerCase trim options file = true.
Proof. intros Hm Ha. unfold passes. by rewrite Hm, Ha. Qed.

Lemma filter_all {A} (P : A → Prop) `{∀ x, Decision (P x)} (l : list A) :
  (∀ x, P x) → filter P l = l.
Proof.
  intros HP. induction l as [|x l IH]; [done|].
  rewrite filter_cons_True by done. by rewrite IH.
Qed.

Lemma filter_none {A} (P : A → Prop) `{∀ x, Decision (P x)} (l : list A) :
  (∀ x, ¬ P x) → filter P l = [].
Proof.
  intros HP. induction l as [|x l IH]; [done|].
  by rewrite filter_cons_False.
Qed.

(** X18.  The options at their edges.  A [maxSize] of 0 is no limit: it
    filters exactly like an absent [maxSize].  With no limit, and
    [accept] absent or the empty string, every file is valid and none is
    rejected.  With [accept] the empty array no file is valid, whatever
    its size and type. *)
Theorem filterFiles_edge_options files (acc : Accept) (m : option Z) :
  filterFiles toLowerCase trim formatBytes files (mkFilterOptions acc (Some 0))
  = filterFiles toLowerCase trim formatBytes files (mkFilterOptions acc None)
  ∧ filterFiles toLowerCase trim formatBytes files (mkFilterOptions AcceptAbsent None) = (files, [])
  ∧ filterFiles toLowerCase trim formatBytes files (mkFilterOptions (AcceptString "") (Some 0))
    = (files, [])
  ∧ (filterFiles toLowerCase trim formatBytes files (mkFilterOptions (AcceptArray []) m)).1 = []
  ∧ map fst (filterFiles toLowerCase trim formatBytes files (mkFilterOptions (AcceptArray []) m)).2
    = files.
Proof.
  unfold filterFiles. rewrite !filterFiles_fold. simpl.
  split_and!.
  - done.
  - rewrite filter_all by done. rewrite filter_none by (intros f Hf; by apply Hf).
    done.
  - rewrite filter_all by done. rewrite filter_none by (intros f Hf; by apply Hf).
    done.
  - apply filter_none. intros file Hp. unfold passes in Hp.
    apply andb_prop_elim in Hp as [_ Hp]. done.
  - rewrite map_map. simpl. rewrite map_id. apply filter_all.
    intros file Hp. unfold passes in Hp.
    apply andb_prop_elim in Hp as [_ Hp]. done.
Qed.

(** ** The dropzone *)

Lemma filterFiles_valid files options :
  (filterFiles toLowerCase trim formatBytes files options).1
  = filter (λ file, passes toLowerCase trim options file) files.
Proof. unfold filterFiles. by rewrite filterFiles_fold. Qed.

Lemma map_file_new_items (ids : list string) (valid : list File.t) :
  (length valid ≤ length ids)%nat →
  map file (map new_item (zip ids valid)) = valid.
Proof.
  intros Hlen. rewrite map_map. simpl.
  change (map (λ x : string * File.t, x.2) (zip ids valid))
    with ((zip ids valid).*2).
  by apply snd_zip.
Qed.

(** X19.  What a drop adds.  A drop on a disabled dropzone changes
    nothing.  Otherwise the dropped files go through [filterFiles] (only
    the first dropped file when [multiple] is off, even if it is rejected
    and a later one would pass), and the files that pass are appended to
    the store as queued records with progress 0, in drop order, the
    records already there untouched and no upload started.  When no file
    passes, [addFiles] is not called: the store is unchanged and no
    admission pass is scheduled; when some file passes, one pass is
    scheduled if [autoUpload] is on. *)
Theorem handleDrop_adds_the_valid_files opts (disabled multiple : bool)
    options ids files w :
  let considered := if multiple then files else take 1 files in
  let valid :=
    filter (λ file, passes toLowerCase trim options file) considered in
  let w' := handleDrop toLowerCase trim formatBytes opts disabled multiple
              options ids files w in
  (length valid ≤ length ids)%nat →
  if disabled then w' = w
  else
    items w' = items w ++ map new_item (zip ids valid)
    ∧ map file (items w') = map file (items w) ++ valid
    ∧ Forall (λ item, status item = StQueued ∧ progress item = 0)
        (map new_item (zip ids valid))
    ∧ timers w'
      = (if decide (valid = []) then timers w
         else if autoUpload opts then timers w ++ [rendered w]
              else timers w)
    ∧ transfers w' = transfers w
    ∧ callbacks w' = callbacks w.
Proof.
  cbv zeta. intros Hlen. unfold handleDrop.
  destruct disabled; [done|].
  replace (if multiple then files else slice0 files 1)
    with (if multiple then files else take 1 files) by done.
  set (considered := if multiple then files else take 1 files) in *.
  unfold handleFiles.
  destruct (filterFiles toLowerCase trim formatBytes considered options)
    as [valid rejected] eqn:Hfilter.
  assert (Hvalid : valid
                   = filter (λ file, passes toLowerCase trim options file)
                       considered).
  { rewrite <- filterFiles_valid. by rewrite Hfilter. }
  rewrite <- Hvalid in *. clear Hvalid Hfilter.
  assert (Hq : Forall (λ item, status item = StQueued ∧ progress item = 0)
                 (map new_item (zip ids valid))).
  { apply Forall_map, Forall_true. done. }
  destruct valid as [|file valid].
  - rewrite decide_False by (simpl; lia). rewrite decide_True by done.
    replace (zip ids []) with (@nil (string * File.t)) by by destruct ids.
    simpl. by rewrite !app_nil_r.
  - rewrite decide_True by (simpl; lia). rewrite decide_False by done.
    rewrite items_addFiles, map_app, map_file_new_items by done.
    split_and!; try done; unfold addFiles; cbv zeta;
      by destruct (autoUpload opts).
Qed.

End Filter.

(** Three files dropped on a dropzone that takes images and PDFs up to
    5 MB; a clip of 90 MB is rejected. *)
Lemma handleDrop_adds_the_valid_files_witness :
  let options :=
    mkFilterOptions (AcceptArray ["image/*"; ".PDF"]) (Some 5000000) in
  let w' := handleDrop lower_ascii (λ s, s) (λ _, "5 MB") one_at_a_time
              false true options ["x"; "y"; "z"]
              [photo_JPG; movie_mp4; report_pdf] complete_a in
  map (λ item, (id item, fileName item, status item)) (items w')
  = [("a", "report.pdf", StComplete); ("x", "Holiday.JPG", StQueued);
     ("y", "report.pdf", StQueued)]
  ∧ length (timers w') = 1%nat.
Proof.
  pose proof (handleDrop_adds_the_valid_files lower_ascii (λ s, s)
                (λ _, "5 MB") one_at_a_time false true
                (mkFilterOptions (AcceptArray ["image/*"; ".PDF"]) (Some 5000000))
                ["x"; "y"; "z"] [photo_JPG; movie_mp4; report_pdf]
                complete_a) as H.
  cbv zeta in H.
  destruct H as (Hitems & _).
  - vm_compute. lia.
  - cbv zeta. split; [rewrite Hitems; reflexivity | reflexivity].
Defined.

(** * Progress events *)




(** * [uploadFiles] with files *)

Lemma items_lookup_new_item (l : list UploadItem) files k
    (f : string * File.t) :
  files !! k = Some f →
  (l ++ map new_item files) !! (length l + k)%nat = Some (new_item f).
Proof.
  intros Hk. rewrite lookup_app_r by lia.
  replace (length l + k - length l)%nat with k by lia.
  by rewrite list_lookup_fmap, Hk.
Qed.

(** X21.  [uploadFiles(files)] does not start the files it is given.  Its
    admission pass, and the one its [addFiles] schedules when
    [autoUpload] is on, both run the [processQueue] of the render the
    call was made from, which does not show the new records.  So, with
    no other pass pending and ids that the render does not show, after
    the call, a render and the timer each new record is still as
    [addFiles] made it: queued, progress 0. *)
Theorem uploadFiles_leaves_its_files_queued opts w files k f :
  settled w →
  timers w = [] →
  files !! k = Some f →
  f.1 ∉ map id (rendered w) →
  items (run opts [UploadFiles (Some files); Render; TimerFires] w)
    !! (length (items w) + k)%nat
  = Some (new_item f).
Proof.
  intros Hs Htimers Hk Hfresh. unfold run. simpl foldl.
  set (w0 := addFiles opts (rendered w) files w).
  assert (Hs0 : settled w0) by by apply settled_addFiles.
  assert (Hstep1 : step opts (UploadFiles (Some files)) w
                   = processQueue opts (rendered w) w0).
  { unfold step, uploadFiles. cbv zeta.
    by rewrite run_microtasks_settled by by apply settled_processQueue. }
  rewrite Hstep1.
  set (w1 := processQueue opts (rendered w) w0).
  assert (Hs1 : settled w1) by by apply settled_processQueue.
  assert (Hn1 : items w1 !! (length (items w) + k)%nat = Some (new_item f)).
  { apply processQueue_untouched; [|done].
    unfold w0. rewrite items_addFiles. by apply items_lookup_new_item. }
  assert (Ht1 : timers w1 = [] ∨ timers w1 = [rendered w]).
  { unfold w1.
    apply (processQueue_invariant
             (λ w', timers w' = [] ∨ timers w' = [rendered w])); [|done].
    unfold w0, addFiles. cbv zeta. destruct (autoUpload opts); simpl.
    - right. by rewrite Htimers.
    - by left. }
  rewrite (step_settled_op opts Render w1 Hs1).
  unfold step. simpl timers.
  destruct Ht1 as [-> | ->].
  - by rewrite run_microtasks_settled.
  - rewrite run_microtasks_settled by by apply settled_processQueue.
    by apply processQueue_untouched.
Qed.

(** The call of the README: [uploadFiles([notes.txt])] on a provider with
    nothing else to do. *)
Lemma uploadFiles_leaves_its_files_queued_witness :
  let w' := run default_options
              [UploadFiles (Some [("n", notes_txt)]); Render; TimerFires]
              initial in
  items w' !! 0%nat = Some (new_item ("n", notes_txt))
  ∧ transfers w' = [].
Proof.
  cbv zeta. split; [|reflexivity].
  apply (uploadFiles_leaves_its_files_queued default_options initial
           [("n", notes_txt)] 0 ("n", notes_txt) initial_settled eq_refl
           eq_refl).
  simpl. apply not_elem_of_nil.
Defined.

(** * The admission pass on a fresh render *)

Lemma marked_uploading_start j i (l : list UploadItem) :
  marked_uploading j l →
  marked_uploading j
    (map (λ item', if decide (id item' = i)
                   then spread item'
                          (mkUpdates (Some StUploading) (Some 0) None None None)
                   else item') l).
Proof.
  intros Hl item' (item & Hin & Hid & Hcase)%elem_of_update_items Hj.
  destruct Hcase as [[_ ->] | [_ ->]]; [done|].
  apply Hl; [done | congruence].
Qed.

Lemma marked_uploading_start_same j (l : list UploadItem) :
  marked_uploading j
    (map (λ item', if decide (id item' = j)
                   then spread item'
                          (mkUpdates (Some StUploading) (Some 0) None None None)
                   else item') l).
Proof.
  intros item' (item & Hin & Hid & Hcase)%elem_of_update_items Hj.
  destruct Hcase as [[_ ->] | [Hne _]]; [done | congruence].
Qed.

Lemma foldl_start_keeps_marked j (l : list UploadItem) w :
  marked_uploading j (items w) →
  marked_uploading j
    (items (foldl (λ w item,
                     uploadFile item
                       (set_uploadQueueRef (λ s, {[id item]} ∪ s) w)) w l)).
Proof.
  revert w. induction l as [|item l IH]; intros w Hw; [done|].
  simpl foldl. apply IH. rewrite items_uploadFile.
  by apply marked_uploading_start.
Qed.

Lemma foldl_start_marks (l : list UploadItem) w item :
  item ∈ l →
  marked_uploading (id item)
    (items (foldl (λ w item,
                     uploadFile item
                       (set_uploadQueueRef (λ s, {[id item]} ∪ s) w)) w l)).
Proof.
  revert w. induction l as [|item0 l IH]; intros w Hin.
  - by apply elem_of_nil in Hin.
  - simpl foldl. apply elem_of_cons in Hin as [-> | Hin]; [|by apply IH].
    apply foldl_start_keeps_marked. rewrite items_uploadFile.
    apply marked_uploading_start_same.
Qed.

(** X22.  The pass does what it is meant to do when it reads current
    records.  If the render is up to date (its records are the store),
    the ids are distinct and the limit is respected, then [uploadFiles()]
    starts uploads for the first free-slots-many queued records without a
    marker, in store order; each of them is uploading at progress 0
    afterwards; and the number of uploading records is still within
    [maxConcurrent]. *)
Theorem uploadFiles_on_current_records opts w :
  settled w →
  rendered w = items w →
  NoDup (map id (items w)) →
  Z.of_nat (uploadingCount (items w)) ≤ maxConcurrent opts →
  let w' := step opts (UploadFiles None) w in
  let slots := maxConcurrent opts - Z.of_nat (uploadingCount (items w)) in
  started w w' = take (Z.to_nat slots) (candidates (items w) w)
  ∧ Forall (λ item, marked_uploading (id item) (items w')) (started w w')
  ∧ Z.of_nat (uploadingCount (items w')) ≤ maxConcurrent opts.
Proof.
  intros Hs Hfresh Hnd Hle. cbv zeta.
  assert (Hstep : step opts (UploadFiles None) w
                  = processQueue opts (items w) w).
  { unfold step, uploadFiles. cbv zeta. rewrite Hfresh.
    by rewrite run_microtasks_settled by by apply settled_processQueue. }
  rewrite Hstep. split_and!.
  - rewrite started_processQueue. unfold slice0.
    by rewrite decide_False by lia.
  - rewrite started_processQueue. apply Forall_forall. intros item Hin.
    unfold processQueue. cbv zeta. by apply foldl_start_marks.
  - by apply processQueue_current_bounded.
Qed.

(** Two uploads allowed, "a" uploading, "b" and "c" queued and shown. *)
Lemma uploadFiles_on_current_records_witness :
  let w := run two_at_a_time
             [AddFiles [("a", report_pdf)]; Render; UploadFiles None;
              AddFiles [("b", photo_png); ("c", notes_txt)]; Render]
             initial in
  let w' := step two_at_a_time (UploadFiles None) w in
  map id (started w w') = ["b"]
  ∧ map (λ item, (id item, status item)) (items w')
    = [("a", StUploading); ("b", StUploading); ("c", StQueued)]
  ∧ Z.of_nat (uploadingCount (items w')) ≤ 2.
Proof.
  pose (w := run two_at_a_time
               [AddFiles [("a", report_pdf)]; Render; UploadFiles None;
                AddFiles [("b", photo_png); ("c", notes_txt)]; Render]
               initial).
  assert (Hnd : NoDup (map id (items w))).
  { vm_compute. repeat (apply NoDup_cons; split;
      [intros Hin; repeat (apply elem_of_cons in Hin as [Hin|Hin];
                           [discriminate|]); by apply elem_of_nil in Hin|]).
    apply NoDup_nil_2. }
  assert (Hle : Z.of_nat (uploadingCount (items w))
                ≤ maxConcurrent two_at_a_time) by (vm_compute; discriminate).
  destruct (uploadFiles_on_current_records two_at_a_time w
              (run_settled _ _ _ initial_settled) eq_refl Hnd Hle)
    as (Hstarted & _ & Hbound).
  cbv zeta. split; [|split; [reflexivity | exact Hbound]].
  change (map id (started w (step two_at_a_time (UploadFiles None) w))
          = ["b"]).
  rewrite Hstarted. reflexivity.
Defined.
